(** * Forest fire: a shallow embedding of [src/geometry.rs] and [src/forest.rs]

    Data model, as in the Rust code:
    - [usize] coordinates, tick counter and burn duration are [N]; the
      clock [tick += 1] is taken without wrap-around (it would need 2^64
      calls to wrap); the sum [tick + burn_duration] is computed as a
      release build does, wrapping modulo 2^64 (a debug build panics at
      that point instead);
    - the [isize] arithmetic of [MooreNeighborhood::next] is written out at
      64 bits, with the [as isize] cast and [checked_add];
    - [BTreeMap<GridPosition, TreeState>] is a [gmap] (only looked up and
      inserted into, never iterated by [tick]);
    - [BTreeSet<GridPosition>] and [BTreeMap<GridPosition, f64>] are
      iterated in [tick], so they are lists kept in ascending order;
    - [Vec<(GridPosition, TreeState)>] is a list, [push] appends;
    - [f64] and [StdRng] are abstract: a class for the three float
      operations the code uses and a class for [Rng::gen_bool];
    - the panic of [expect] is [None]. *)

From Stdlib Require Import QArith Lqa.
From stdpp Require Import base gmap list sorting.

(** ** geometry.rs *)

Record GridPosition := GridPosition_new { x : N; y : N }.

#[global] Instance GridPosition_eq_dec : EqDecision GridPosition.
Proof. solve_decision. Defined.

#[global] Program Instance GridPosition_countable : Countable GridPosition :=
  inj_countable' (fun p => (x p, y p)) (fun '(a, b) => GridPosition_new a b) _.
Next Obligation. by intros []. Qed.

(** The derived [Ord]: lexicographic, [x] first. *)
Definition pos_ltb (a b : GridPosition) : bool :=
  (x a <? x b)%N || ((x a =? x b)%N && (y a <? y b)%N).

Definition pos_lt (a b : GridPosition) : Prop := pos_ltb a b = true.

Definition isize_min : Z := (- 2 ^ 63)%Z.
Definition isize_max : Z := (2 ^ 63 - 1)%Z.

(** [n as isize] for a 64-bit [usize] [n]. *)
Definition usize_as_isize (n : N) : Z :=
  if (Z.of_N n <? 2 ^ 63)%Z then Z.of_N n else (Z.of_N n - 2 ^ 64)%Z.

(** [isize::checked_add]. *)
Definition isize_checked_add (a b : Z) : option Z :=
  if (isize_min <=? a + b)%Z && (a + b <=? isize_max)%Z then Some (a + b)%Z
  else None.

Definition DELTAS : list (Z * Z) :=
  [(-1, 0); (1, 0); (0, -1); (0, 1); (-1, -1); (-1, 1); (1, 1); (1, -1)]%Z.

(** One call of [next] on the remaining offset range. *)
Definition neighbor_at (pos : GridPosition) (delta : Z * Z) : option GridPosition :=
  let pos_x := usize_as_isize (x pos) in
  let pos_y := usize_as_isize (y pos) in
  match isize_checked_add pos_x delta.1, isize_checked_add pos_y delta.2 with
  | Some x', Some y' =>
      if (0 <=? x')%Z && (0 <=? y')%Z
      then Some (GridPosition_new (Z.to_N x') (Z.to_N y'))
      else None
  | _, _ => None
  end.

(** [GridPosition::neighbors], the iterator collected in order. *)
Definition neighbors (pos : GridPosition) : list GridPosition :=
  omap (neighbor_at pos) DELTAS.

(** The neighbourhood as the spec words it (for comparison with
    [neighbors]): each offset added to [pos] in the order of [DELTAS],
    results with a negative component left out. *)
Definition neighbors_spec (pos : GridPosition) : list GridPosition :=
  omap (fun d : Z * Z =>
          let x' := (Z.of_N (x pos) + d.1)%Z in
          let y' := (Z.of_N (y pos) + d.2)%Z in
          if (0 <=? x')%Z && (0 <=? y')%Z
          then Some (GridPosition_new (Z.to_N x') (Z.to_N y'))
          else None) DELTAS.

(** ** forest.rs *)

(** [a + b] on [usize] in a release build: wraps modulo 2^64. *)
Definition usize_add (a b : N) : N := ((a + b) mod 2 ^ 64)%N.

Inductive TreeState :=
| Uncaught
| Catching
| Burning (until : N)
| Burnt.

#[global] Instance TreeState_eq_dec : EqDecision TreeState.
Proof. solve_decision. Defined.

(** The [f64] operations the engine uses: [1.0], [-] and [*]. *)
Class Float64 (F : Type) := {
  f_one : F;
  f_sub : F -> F -> F;
  f_mul : F -> F -> F
}.

(** [Rng::gen_bool] on the random source state [R]. *)
Class RngCore (R F : Type) := {
  gen_bool : F -> R -> bool * R
}.

(** A random source that also records every [gen_bool] call: the
    probability asked for and the outcome drawn. *)
Definition logged_rng {R F : Type} `{RngCore R F} : RngCore (R * list (F * bool)) F := {|
  gen_bool p st := let '(b, r') := gen_bool p st.1 in (b, (r', st.2 ++ [(p, b)])) |}.

Section Engine.
Context {F R : Type} `{Float64 F} `{RngCore R F}.

Record Forest := {
  grid_width : N;
  grid_height : N;
  suceptibility : F;
  burn_duration : N;
  rng : R;
  trees : gmap GridPosition TreeState;
  active : list GridPosition;
  tick : N;
  may_burn : list (GridPosition * F);
  changeset : list (GridPosition * TreeState)
}.

(** [BTreeSet::insert]. *)
Fixpoint set_insert (p : GridPosition) (s : list GridPosition) : list GridPosition :=
  match s with
  | [] => [p]
  | q :: s' =>
      if decide (p = q) then s
      else if pos_ltb p q then p :: s
      else q :: set_insert p s'
  end.

(** [BTreeSet::remove]. *)
Fixpoint set_remove (p : GridPosition) (s : list GridPosition) : list GridPosition :=
  match s with
  | [] => []
  | q :: s' => if decide (p = q) then s' else q :: set_remove p s'
  end.

(** [*self.may_burn.entry(k).or_insert(1.0) *= q]. *)
Fixpoint may_burn_mul (k : GridPosition) (q : F) (m : list (GridPosition * F))
  : list (GridPosition * F) :=
  match m with
  | [] => [(k, f_mul f_one q)]
  | (k', v) :: m' =>
      if decide (k = k') then (k', f_mul v q) :: m'
      else if pos_ltb k k' then (k, f_mul f_one q) :: m
      else (k', v) :: may_burn_mul k q m'
  end.

(** [BTreeMap::get] on the accumulator. *)
Fixpoint may_burn_get (k : GridPosition) (m : list (GridPosition * F)) : option F :=
  match m with
  | [] => None
  | (k', v) :: m' => if decide (k = k') then Some v else may_burn_get k m'
  end.

(** [gen_bool] with success probability [tree_density] for every cell,
    [x] in the outer loop and [y] in the inner one. *)
Definition place_column (dens : F) (x0 : N)
    (st : gmap GridPosition TreeState * R) (y0 : N) : gmap GridPosition TreeState * R :=
  let '(t, r) := st in
  let '(b, r') := gen_bool dens r in
  (if b then <[GridPosition_new x0 y0 := Uncaught]> t else t, r').

Definition N_range (n : N) : list N := map N.of_nat (seq 0 (N.to_nat n)).

Definition place_trees (w h : N) (dens : F) (r : R) : gmap GridPosition TreeState * R :=
  foldl (fun st x0 => foldl (place_column dens x0) st (N_range h)) (∅, r) (N_range w).

(** The cells of the grid in the order of the two loops of [Forest::new]:
    [x] outer, [y] inner. *)
Definition grid_cells (w h : N) : list GridPosition :=
  flat_map (fun x0 => map (fun y0 => GridPosition_new x0 y0) (N_range h)) (N_range w).

(** [Forest::new]. *)
Definition Forest_new (w h : N) (p : F) (d : N) (dens : F) (r : R) : Forest :=
  let '(t, r') := place_trees w h dens r in
  let center := GridPosition_new (w / 2) (w / 2) in
  {| grid_width := w; grid_height := h; suceptibility := p; burn_duration := d;
     rng := r'; trees := <[center := Catching]> t; active := set_insert center [];
     tick := 0; may_burn := []; changeset := [] |}.

(** [Forest::steady_state]. *)
Definition Forest_steady_state (f : Forest) : bool := Nat.eqb (length (active f)) 0.

(** The inner [for neighbor in grid_pos.neighbors()] loop. *)
Definition spread (t : gmap GridPosition TreeState) (q : F) (ns : list GridPosition)
    (mb : list (GridPosition * F)) : list (GridPosition * F) :=
  foldl (fun mb n => match t !! n with
                     | Some Uncaught => may_burn_mul n q mb
                     | _ => mb
                     end) mb ns.

(** First loop of [Forest::tick], over [self.active] in ascending order;
    [None] is the panic of [expect]. *)
Fixpoint propagate (t : gmap GridPosition TreeState) (tk bd : N) (q : F)
    (act : list GridPosition) (mb : list (GridPosition * F))
    (cs : list (GridPosition * TreeState))
    : option (list (GridPosition * F) * list (GridPosition * TreeState)) :=
  match act with
  | [] => Some (mb, cs)
  | p :: act' =>
      match t !! p with
      | None => None
      | Some Catching => propagate t tk bd q act' mb (cs ++ [(p, Burning (usize_add tk bd))])
      | Some (Burning until) =>
          propagate t tk bd q act' (spread t q (neighbors p) mb)
            (if (until <=? tk)%N then cs ++ [(p, Burnt)] else cs)
      | Some _ => propagate t tk bd q act' mb cs
      end
  end.

(** Second loop: one [gen_bool] per accumulator entry, ascending. *)
Fixpoint decide_ignitions (mb : list (GridPosition * F)) (r : R)
    (cs : list (GridPosition * TreeState)) : R * list (GridPosition * TreeState) :=
  match mb with
  | [] => (r, cs)
  | (k, v) :: mb' =>
      let '(b, r') := gen_bool v r in
      decide_ignitions mb' r' (if b then cs else cs ++ [(k, Catching)])
  end.

(** Third loop: [self.changeset.drain(..)]. *)
Fixpoint commit (cs : list (GridPosition * TreeState))
    (t : gmap GridPosition TreeState) (a : list GridPosition)
    : gmap GridPosition TreeState * list GridPosition :=
  match cs with
  | [] => (t, a)
  | (p, s) :: cs' =>
      commit cs' (<[p := s]> t)
        (match s with
         | Catching => set_insert p a
         | Burnt => set_remove p a
         | _ => a
         end)
  end.

(** [Forest::tick]. *)
Definition Forest_tick (f : Forest) : option Forest :=
  match propagate (trees f) (tick f) (burn_duration f) (f_sub f_one (suceptibility f))
          (active f) (may_burn f) (changeset f) with
  | None => None
  | Some (mb, cs) =>
      let '(r', cs') := decide_ignitions mb (rng f) cs in
      let '(t', a') := commit cs' (trees f) (active f) in
      Some {| grid_width := grid_width f; grid_height := grid_height f;
              suceptibility := suceptibility f; burn_duration := burn_duration f;
              rng := r'; trees := t'; active := a'; tick := tick f + 1;
              may_burn := []; changeset := [] |}
  end.

(** [n] successive calls of [tick]. *)
Fixpoint Forest_ticks (n : nat) (f : Forest) : option Forest :=
  match n with
  | O => Some f
  | S n' => match Forest_tick f with
            | None => None
            | Some f' => Forest_ticks n' f'
            end
  end.

(** States reachable by construction followed by calls of [tick]. *)
Inductive reachable : Forest -> Prop :=
| reachable_new w h p d dens r : reachable (Forest_new w h p d dens r)
| reachable_tick f f' : reachable f -> Forest_tick f = Some f' -> reachable f'.

(** Observations used to state the properties. *)

(** The accumulator's keys in strictly ascending order (a [BTreeMap]). *)
Definition keys_sorted (m : list (GridPosition * F)) : Prop :=
  StronglySorted (fun a b => pos_lt a.1 b.1) m.

(** [1.0 * q * ... * q] with [n] factors [q], multiplied left to right. *)
Definition fpow (q : F) (n : nat) : F := Nat.iter n (fun v => f_mul v q) f_one.

Definition is_burning (s : option TreeState) : bool :=
  match s with Some (Burning _) => true | _ => false end.

Definition is_active_state (s : option TreeState) : bool :=
  match s with Some Catching | Some (Burning _) => true | _ => false end.

(** The number of active [Burning] cells that have [k] among their
    neighbours. *)
Definition burning_neighbors_count (f : Forest) (k : GridPosition) : nat :=
  length (filter (fun b => is_burning (trees f !! b) = true /\ k ∈ neighbors b) (active f)).

(** The entry the first loop of [tick] pushes for an active cell. *)
Definition active_change (t : gmap GridPosition TreeState) (tk bd : N) (p : GridPosition)
  : list (GridPosition * TreeState) :=
  match t !! p with
  | Some Catching => [(p, Burning (usize_add tk bd))]
  | Some (Burning until) => if (until <=? tk)%N then [(p, Burnt)] else []
  | _ => []
  end.

(** The invariant of the states between two calls: the active set is
    ascending and holds exactly the [Catching] and [Burning] cells, and the
    two buffers are empty. *)
Definition forest_inv (f : Forest) : Prop :=
  StronglySorted pos_lt (active f) /\
  (forall p, p ∈ active f <-> is_active_state (trees f !! p) = true) /\
  may_burn f = [] /\ changeset f = [].

(** The state a cell has after one call of [tick], read off the three
    loops; [ignited] says whether the cell's draw failed. *)
Definition cell_after (tk bd : N) (ignited : bool) (s : option TreeState) : option TreeState :=
  match s with
  | Some Catching => Some (Burning (usize_add tk bd))
  | Some (Burning until) => if (until <=? tk)%N then Some Burnt else Some (Burning until)
  | Some Uncaught => Some (if ignited then Catching else Uncaught)
  | s => s
  end.

(** Position of a state along [Uncaught -> Catching -> Burning -> Burnt]. *)
Definition state_rank (s : TreeState) : nat :=
  match s with Uncaught => 0 | Catching => 1 | Burning _ => 2 | Burnt => 3 end.

(** A bound on the calls of [tick] a cell can still be active for: an
    [Uncaught] tree may yet catch, be [Catching] for one call and [Burning]
    until its payload; a [Burning u] cell is active for [u - tick + 1]
    more calls. *)
Definition cell_potential (tk bd : N) (s : option TreeState) : nat :=
  match s with
  | Some Uncaught => N.to_nat bd + 3
  | Some Catching => N.to_nat bd + 2
  | Some (Burning u) => N.to_nat (u - tk) + 1
  | _ => 0
  end.

(** The potentials of the cells at the coordinates [ks]. *)
Definition fire_potential (ks : list GridPosition) (f : Forest) : nat :=
  sum_list (map (fun k => cell_potential (tick f) (burn_duration f) (trees f !! k)) ks).

(** The payload of a [Burning] cell: set to [tick + D] (wrapped) in the
    call that turns the cell [Burning], it is below [tick + D]; while
    [tick + D] has not reached 2^64 no sum has wrapped, and the payload is
    at least [tick - 1]. *)
Definition burning_bounded (f : Forest) : Prop :=
  forall p u, trees f !! p = Some (Burning u) ->
    (u + 1 <= tick f + burn_duration f)%N /\
    ((tick f + burn_duration f <= 2 ^ 64)%N -> (tick f <= u + 1)%N).

End Engine.

Arguments Forest : clear implicits.

(** ** A concrete instance for evaluation: rationals for [f64] and a
    counter for the random source, a draw with probability [p] succeeding
    when [((r mod 4) + 1) / 4 <= p]. *)
Module Concrete.

#[global] Instance Q_float : Float64 Q := {|
  f_one := 1%Q; f_sub := Qminus; f_mul := Qmult |}.

#[global] Instance counter_rng : RngCore nat Q := {|
  gen_bool p r := (Qle_bool (inject_Z (Z.of_nat (r mod 4 + 1)) / 4) p, S r) |}.

(** A single tree, burn duration 1. *)
Definition single_tree : Forest Q nat := Forest_new 1 1 (1#2) 1 0%Q 0%nat.

(** A full 3 by 3 grid, susceptibility 1/2, burn duration 2. *)
Definition full_3x3 : Forest Q nat := Forest_new 3 3 (1#2) 2 1%Q 0%nat.

(** A grid wider than it is high. *)
Definition wide_10x2 : Forest Q nat := Forest_new 10 2 (1#2) 1 0%Q 0%nat.

(** The full 3 by 3 grid with susceptibility 0 and 1. *)
Definition immune_3x3 : Forest Q nat := Forest_new 3 3 0%Q 2 1%Q 0%nat.
Definition flammable_3x3 : Forest Q nat := Forest_new 3 3 1%Q 2 1%Q 0%nat.

(** The full 3 by 3 grid with susceptibility 1 and burn duration
    [usize::MAX]. *)
Definition flammable_3x3_dmax : Forest Q nat := Forest_new 3 3 1%Q (2 ^ 64 - 1) 1%Q 0%nat.

End Concrete.

(** ** Facts about the containers *)

Section Containers.
Context {F : Type} `{Float64 F}.

Lemma pos_ltb_spec a b :
  pos_ltb a b = true <-> (x a < x b)%N \/ (x a = x b /\ (y a < y b)%N).
Proof.
  unfold pos_ltb. rewrite orb_true_iff, andb_true_iff, !N.ltb_lt, N.eqb_eq. tauto.
Qed.

Lemma pos_ltb_irrefl a : pos_ltb a a = false.
Proof. apply not_true_iff_false. rewrite pos_ltb_spec. lia. Qed.

Lemma pos_lt_trans a b c : pos_lt a b -> pos_lt b c -> pos_lt a c.
Proof. unfold pos_lt. rewrite !pos_ltb_spec. lia. Qed.

Lemma pos_lt_ne a b : pos_lt a b -> a <> b.
Proof. unfold pos_lt. intros Hlt ->. by rewrite pos_ltb_irrefl in Hlt. Qed.

Lemma pos_ltb_total a b : a <> b -> pos_ltb a b = false -> pos_lt b a.
Proof.
  destruct a as [xa ya], b as [xb yb]. unfold pos_lt.
  rewrite <- not_true_iff_false, !pos_ltb_spec. simpl. intros Hne Hf.
  destruct (N.lt_trichotomy xa xb) as [?|[->|?]]; [tauto| |tauto].
  destruct (N.lt_trichotomy ya yb) as [?|[->|?]]; [tauto|congruence|tauto].
Qed.

#[local] Instance pos_lt_Transitive : Transitive pos_lt.
Proof. intros a b c. apply pos_lt_trans. Qed.

Lemma elem_of_set_insert p s z : z ∈ set_insert p s <-> z = p \/ z ∈ s.
Proof.
  induction s as [|q s IH]; simpl.
  - rewrite list_elem_of_singleton, elem_of_nil. tauto.
  - destruct (decide (p = q)) as [->|]; [rewrite elem_of_cons; tauto|].
    destruct (pos_ltb p q); rewrite !elem_of_cons; [tauto|].
    rewrite IH. tauto.
Qed.

Lemma set_insert_sorted p s :
  StronglySorted pos_lt s -> StronglySorted pos_lt (set_insert p s).
Proof.
  induction s as [|q s IH]; simpl; intros Hs.
  - repeat constructor.
  - inversion Hs as [|? ? Hs' Hall]; subst.
    destruct (decide (p = q)) as [->|Hne]; [done|].
    destruct (pos_ltb p q) eqn:Hpq.
    + constructor; [done|]. constructor; [done|].
      eapply Forall_impl; [exact Hall|]. intros z Hz. by eapply pos_lt_trans.
    + constructor; [by apply IH|].
      apply Forall_forall. intros z Hz. rewrite elem_of_set_insert in Hz.
      destruct Hz as [->|Hz]; [by apply pos_ltb_total|].
      rewrite Forall_forall in Hall. by apply Hall.
Qed.

Lemma elem_of_set_remove p s z :
  StronglySorted pos_lt s -> z ∈ set_remove p s <-> z <> p /\ z ∈ s.
Proof.
  induction s as [|q s IH]; simpl; intros Hs.
  - rewrite elem_of_nil. tauto.
  - inversion Hs as [|? ? Hs' Hall]; subst.
    destruct (decide (p = q)) as [->|Hne].
    + rewrite elem_of_cons. split; [|tauto].
      intros Hz. split; [|tauto]. intros ->.
      rewrite Forall_forall in Hall.
      specialize (Hall _ Hz). unfold pos_lt in Hall. by rewrite pos_ltb_irrefl in Hall.
    + rewrite !elem_of_cons, IH by done. split; [|tauto].
      intros [->|Hz]; [|tauto]. auto.
Qed.

Lemma set_remove_sorted p s :
  StronglySorted pos_lt s -> StronglySorted pos_lt (set_remove p s).
Proof.
  induction s as [|q s IH]; simpl; intros Hs; [done|].
  inversion Hs as [|? ? Hs' Hall]; subst.
  destruct (decide (p = q)); [done|].
  constructor; [by apply IH|].
  apply Forall_forall. intros z Hz. rewrite elem_of_set_remove in Hz; [|done].
  rewrite Forall_forall in Hall. apply Hall. tauto.
Qed.

End Containers.

(** ** The neighbourhood *)

Lemma neighbor_at_coords p d q :
  neighbor_at p d = Some q ->
  Z.of_N (x q) = (usize_as_isize (x p) + d.1)%Z /\
  Z.of_N (y q) = (usize_as_isize (y p) + d.2)%Z.
Proof.
  unfold neighbor_at, isize_checked_add.
  repeat case_match; intros Hq; simplify_eq; simpl;
    repeat match goal with H : (_ && _) = true |- _ => apply andb_prop in H as [? ?] end;
    rewrite ?Z.leb_le in *; lia.
Qed.

Lemma neighbor_at_inj p d1 d2 q :
  neighbor_at p d1 = Some q -> neighbor_at p d2 = Some q -> d1 = d2.
Proof.
  intros H1 H2. apply neighbor_at_coords in H1, H2.
  destruct d1, d2; simpl in *. f_equal; lia.
Qed.

Lemma NoDup_omap_inj {A B} (g : A -> option B) (l : list A) :
  NoDup l -> (forall a1 a2 b, g a1 = Some b -> g a2 = Some b -> a1 = a2) ->
  NoDup (omap g l).
Proof.
  intros Hl Hinj. induction Hl as [|a l Ha Hl IH]; csimpl; [constructor|].
  destruct (g a) as [b|] eqn:Hga; [|done].
  constructor; [|done].
  rewrite list_elem_of_omap. intros (a' & Ha' & Hga').
  assert (a' = a) as -> by eauto. done.
Qed.

Lemma neighbors_NoDup p : NoDup (neighbors p).
Proof.
  apply NoDup_omap_inj; [|apply neighbor_at_inj].
  unfold DELTAS. repeat (constructor; [rewrite ?elem_of_cons, ?elem_of_nil; intros ?; naive_solver|]).
  constructor.
Qed.

(** ** Release-build [usize] addition *)

Lemma usize_add_le a b : (usize_add a b <= a + b)%N.
Proof. unfold usize_add. apply N.Div0.mod_le. Qed.

Lemma usize_add_small a b : (a + b < 2 ^ 64)%N -> usize_add a b = (a + b)%N.
Proof. intros Hab. unfold usize_add. by apply N.mod_small. Qed.

Lemma usize_add_wrap a b :
  (a < 2 ^ 64)%N -> (b < 2 ^ 64)%N -> (2 ^ 64 <= a + b)%N ->
  usize_add a b = (a + b - 2 ^ 64)%N.
Proof.
  intros Ha Hb Hab. unfold usize_add.
  assert (E : (a + b = (a + b - 2 ^ 64) + 1 * 2 ^ 64)%N) by lia.
  rewrite E at 1. rewrite N.Div0.mod_add. apply N.mod_small. lia.
Qed.

(** ** The accumulator *)

Section Accumulator.
Context {F : Type} `{Float64 F}.

Lemma may_burn_get_Some_key k (m : list (GridPosition * F)) v : may_burn_get k m = Some v -> k ∈ m.*1.
Proof.
  induction m as [|[k' v'] m IH]; simpl; [done|].
  case_decide; intros Hv; rewrite elem_of_cons; [by left|]. right. eauto.
Qed.

Lemma may_burn_get_None k (m : list (GridPosition * F)) : k ∉ m.*1 -> may_burn_get k m = None.
Proof.
  intros Hk. destruct (may_burn_get k m) eqn:E; [|done].
  exfalso. eauto using may_burn_get_Some_key.
Qed.

Lemma may_burn_mul_keys n q (m : list (GridPosition * F)) k : k ∈ (may_burn_mul n q m).*1 <-> k = n \/ k ∈ m.*1.
Proof.
  induction m as [|[k' v] m IH]; simpl.
  - rewrite list_elem_of_singleton, elem_of_nil. tauto.
  - repeat case_decide; simplify_eq; simpl; rewrite ?elem_of_cons; [tauto|].
    destruct (pos_ltb n k'); simpl; rewrite ?elem_of_cons, ?IH; tauto.
Qed.

Lemma may_burn_mul_sorted n q (m : list (GridPosition * F)) : keys_sorted m -> keys_sorted (may_burn_mul n q m).
Proof.
  unfold keys_sorted. induction m as [|[k' v] m IH]; simpl; intros Hs.
  - repeat constructor.
  - inversion Hs as [|? ? Hs' Hall]; subst.
    case_decide as Hnk; [subst; by constructor|].
    destruct (pos_ltb n k') eqn:Hlt.
    + constructor; [done|]. constructor; [done|].
      eapply Forall_impl; [exact Hall|]. intros [z w] Hz. simpl in *. by eapply pos_lt_trans.
    + constructor; [by apply IH|].
      apply Forall_forall. intros [z w] Hz. simpl.
      assert (z ∈ (may_burn_mul n q m).*1) as Hz'
        by (apply list_elem_of_fmap; exists (z, w); done).
      apply may_burn_mul_keys in Hz' as [->|Hz']; [by apply pos_ltb_total|].
      apply list_elem_of_fmap in Hz' as ([z' w'] & ? & Hz'). simpl in *; subst.
      rewrite Forall_forall in Hall. by apply (Hall (z', w')).
Qed.

Lemma may_burn_get_mul n q (m : list (GridPosition * F)) k :
  keys_sorted m ->
  may_burn_get k (may_burn_mul n q m) =
  if decide (k = n) then Some (f_mul (default f_one (may_burn_get k m)) q)
  else may_burn_get k m.
Proof.
  unfold keys_sorted. induction m as [|[k' v] m IH]; simpl; intros Hs.
  - by repeat case_decide.
  - inversion Hs as [|? ? Hs' Hall]; subst.
    destruct (decide (n = k')) as [<-|Hnk]; [simpl; by repeat case_decide|].
    destruct (pos_ltb n k') eqn:Hlt; simpl.
    + destruct (decide (k = n)) as [->|]; [|by repeat case_decide].
      case_decide; [done|]. rewrite may_burn_get_None; [done|].
      intros Hin. apply list_elem_of_fmap in Hin as ([z w] & Hzn & Hz). simpl in Hzn. subst z.
      rewrite Forall_forall in Hall. specialize (Hall _ Hz). simpl in Hall.
      apply (pos_lt_ne n n); [|done]. by eapply pos_lt_trans.
    + rewrite IH by done. by repeat case_decide; simplify_eq.
Qed.

End Accumulator.

(** ** The first loop of [tick] *)

Section Propagation.
Context {F : Type} `{Float64 F}.
Implicit Types (t : gmap GridPosition TreeState) (mb : list (GridPosition * F)).

Lemma may_burn_get_is_Some k mb : is_Some (may_burn_get k mb) <-> k ∈ mb.*1.
Proof.
  split; [intros [v Hv]; eauto using may_burn_get_Some_key|].
  induction mb as [|[k' v] mb IH]; simpl; intros Hk; [by apply elem_of_nil in Hk|].
  case_decide; [done|]. apply IH. by apply elem_of_cons in Hk as [->|].
Qed.

Lemma spread_sorted t q ns mb : keys_sorted mb -> keys_sorted (spread t q ns mb).
Proof.
  unfold spread. revert mb. induction ns as [|n ns IH]; intros mb Hs; simpl; [done|].
  apply IH. case_match; try done. case_match; try done. by apply may_burn_mul_sorted.
Qed.

Lemma spread_get t q ns mb k :
  NoDup ns -> keys_sorted mb ->
  may_burn_get k (spread t q ns mb) =
  if decide (t !! k = Some Uncaught /\ k ∈ ns)
  then Some (f_mul (default f_one (may_burn_get k mb)) q)
  else may_burn_get k mb.
Proof.
  unfold spread. revert mb. induction ns as [|n ns IH]; intros mb Hnd Hs; simpl.
  - case_decide as Hc; [destruct Hc as [_ Hc]; by apply elem_of_nil in Hc|done].
  - apply NoDup_cons in Hnd as [Hn Hnd].
    assert (keys_sorted (match t !! n with Some Uncaught => may_burn_mul n q mb | _ => mb end))
      as Hs' by (repeat case_match; try done; by apply may_burn_mul_sorted).
    rewrite IH by done.
    destruct (decide (k = n)) as [->|Hkn].
    + rewrite decide_False by naive_solver.
      destruct (t !! n) as [[]|] eqn:Ht;
        rewrite ?may_burn_get_mul, ?decide_True by (done || rewrite elem_of_cons; auto);
        try done; rewrite decide_False; naive_solver.
    + assert (may_burn_get k (match t !! n with Some Uncaught => may_burn_mul n q mb | _ => mb end)
              = may_burn_get k mb) as ->.
      { destruct (t !! n) as [[]|]; try done. rewrite may_burn_get_mul by done. by rewrite decide_False. }
      apply decide_ext. rewrite elem_of_cons. naive_solver.
Qed.

Lemma iter_mul_comm c q v :
  Nat.iter c (fun v => f_mul v q) (f_mul v q) = f_mul (Nat.iter c (fun v => f_mul v q) v) q.
Proof. induction c as [|c IH]; simpl; [done|]. by rewrite IH. Qed.

Lemma propagate_None t tk bd q act mb cs :
  (exists p, p ∈ act /\ t !! p = None) -> propagate t tk bd q act mb cs = None.
Proof.
  revert mb cs. induction act as [|p act IH]; intros mb cs (p' & Hp' & Ht); simpl.
  - by apply elem_of_nil in Hp'.
  - apply elem_of_cons in Hp' as [->|Hp']; [by rewrite Ht|].
    repeat case_match; try done; apply IH; eauto.
Qed.

Lemma propagate_Some t tk bd q act mb cs :
  (forall p, p ∈ act -> is_Some (t !! p)) -> keys_sorted mb ->
  exists mb',
    propagate t tk bd q act mb cs = Some (mb', cs ++ flat_map (active_change t tk bd) act) /\
    keys_sorted mb' /\
    forall k,
      let c := length (filter (fun b => is_burning (t !! b) = true /\ k ∈ neighbors b) act) in
      may_burn_get k mb' =
      if decide (t !! k = Some Uncaught /\ c <> 0)
      then Some (Nat.iter c (fun v => f_mul v q) (default f_one (may_burn_get k mb)))
      else may_burn_get k mb.
Proof.
  revert mb cs. induction act as [|p act IH]; intros mb cs Hact Hs; simpl.
  - exists mb. rewrite app_nil_r. split_and!; [done|done|]. intros k. simpl.
    rewrite decide_False; naive_solver.
  - destruct (Hact p (list_elem_of_here _ _)) as [s Hps].
    assert (forall p', p' ∈ act -> is_Some (t !! p')) as Hact'
      by (intros; apply Hact; by apply list_elem_of_further).
    unfold active_change at 1. rewrite Hps.
    destruct s as [| |u|].
    + destruct (IH mb cs Hact' Hs) as (mb' & Hprop & Hs' & Hget).
      exists mb'. rewrite Hprop. split_and!; [done|done|].
      intros k. rewrite filter_cons_False by (rewrite Hps; naive_solver). apply Hget.
    + destruct (IH mb (cs ++ [(p, Burning (usize_add tk bd))]) Hact' Hs) as (mb' & Hprop & Hs' & Hget).
      exists mb'. rewrite Hprop, <- app_assoc. split_and!; [done|done|].
      intros k. rewrite filter_cons_False by (rewrite Hps; naive_solver). apply Hget.
    + set (mb1 := spread t q (neighbors p) mb).
      assert (keys_sorted mb1) as Hs1 by (by apply spread_sorted).
      destruct (IH mb1 (if (u <=? tk)%N then cs ++ [(p, Burnt)] else cs) Hact' Hs1)
        as (mb' & Hprop & Hs' & Hget).
      exists mb'. rewrite Hprop. split_and!.
      { f_equal. f_equal. case_match; [by rewrite <- app_assoc|done]. }
      { done. }
      intros k. cbv zeta. rewrite Hget. unfold mb1.
      rewrite spread_get by (done || apply neighbors_NoDup).
      destruct (decide (k ∈ neighbors p)) as [Hkn|Hkn].
      * rewrite filter_cons_True by (rewrite Hps; naive_solver). simpl.
        destruct (decide (t !! k = Some Uncaught)) as [Hu|Hu].
        -- rewrite !(decide_True _ _ (conj Hu Hkn)). simpl.
           set (c := length _).
           rewrite (decide_True (P := _ /\ S c <> 0)) by naive_solver.
           destruct (decide (c = 0)) as [Hc|Hc].
           ++ rewrite decide_False by naive_solver. by rewrite Hc.
           ++ rewrite decide_True by naive_solver. by rewrite iter_mul_comm.
        -- by rewrite !decide_False by naive_solver.
      * rewrite filter_cons_False by naive_solver.
        by rewrite (decide_False (P := t !! k = Some Uncaught /\ k ∈ neighbors p)) by naive_solver.
    + destruct (IH mb cs Hact' Hs) as (mb' & Hprop & Hs' & Hget).
      exists mb'. rewrite Hprop. split_and!; [done|done|].
      intros k. rewrite filter_cons_False by (rewrite Hps; naive_solver). apply Hget.
Qed.

End Propagation.

(** ** The second and third loops of [tick] *)

Section Commit.
Context {F R : Type} `{Float64 F} `{RngCore R F}.

Lemma keys_sorted_NoDup (mb : list (GridPosition * F)) : keys_sorted mb -> NoDup mb.*1.
Proof.
  unfold keys_sorted. induction 1 as [|[k v] mb Hs IH Hall]; csimpl; constructor; [|done].
  intros Hk. apply list_elem_of_fmap in Hk as ([k' v'] & Hkk & Hk'). simpl in Hkk; subst k'.
  rewrite Forall_forall in Hall. specialize (Hall _ Hk'). simpl in Hall.
  by apply (pos_lt_ne k k).
Qed.

Lemma StronglySorted_NoDup (a : list GridPosition) : StronglySorted pos_lt a -> NoDup a.
Proof.
  induction 1 as [|p a Hs IH Hall]; constructor; [|done].
  intros Hp. rewrite Forall_forall in Hall. by apply (pos_lt_ne p p); [apply Hall|].
Qed.

Lemma decide_ignitions_changes (mb : list (GridPosition * F)) r cs :
  exists ks, (decide_ignitions mb r cs).2 = cs ++ map (fun k => (k, Catching)) ks /\
             (forall k, k ∈ ks -> k ∈ mb.*1) /\ (NoDup mb.*1 -> NoDup ks).
Proof.
  revert r cs. induction mb as [|[k v] mb IH]; intros r cs; simpl.
  - exists []. rewrite app_nil_r. split_and!; [done| |constructor].
    intros ? Hk. by apply elem_of_nil in Hk.
  - destruct (gen_bool v r) as [b r'].
    destruct b.
    + destruct (IH r' cs) as (ks & Hks & Hin & Hnd). exists ks. split_and!; [done| |].
      * intros k' Hk'. apply elem_of_cons. right. auto.
      * intros Hnd'. apply NoDup_cons in Hnd' as [_ ?]. auto.
    + destruct (IH r' (cs ++ [(k, Catching)])) as (ks & Hks & Hin & Hnd).
      exists (k :: ks). rewrite Hks, <- app_assoc. split_and!; [done| |].
      * intros k' Hk'. apply elem_of_cons in Hk' as [->|Hk']; apply elem_of_cons; auto.
      * intros Hnd'. apply NoDup_cons in Hnd' as [Hk Hnd'].
        constructor; [|auto]. intros Hk'. by apply Hk, Hin.
Qed.

Lemma commit_spec (cs : list (GridPosition * TreeState)) t a :
  StronglySorted pos_lt a ->
  StronglySorted pos_lt (commit cs t a).2 /\
  forall p,
    (filter (fun e => e.1 = p) cs = [] ->
       (commit cs t a).1 !! p = t !! p /\ (p ∈ (commit cs t a).2 <-> p ∈ a)) /\
    (forall s, filter (fun e => e.1 = p) cs = [(p, s)] ->
       (commit cs t a).1 !! p = Some s /\
       (p ∈ (commit cs t a).2 <-> s = Catching \/ (s <> Burnt /\ p ∈ a))).
Proof.
  revert t a. induction cs as [|[p0 s0] cs IH]; intros t a Ha; simpl.
  - split; [done|]. intros p. split; [done|]. intros s Hs. discriminate.
  - set (a1 := match s0 with Catching => set_insert p0 a | Burnt => set_remove p0 a | _ => a end).
    assert (StronglySorted pos_lt a1) as Ha1.
    { unfold a1. destruct s0; auto using set_insert_sorted, set_remove_sorted. }
    destruct (IH (<[p0 := s0]> t) a1 Ha1) as [Hs IHp]. split; [done|].
    intros p. destruct (IHp p) as [IHnil IHone].
    assert (forall z, z <> p0 -> z ∈ a1 <-> z ∈ a) as Ha1_other.
    { intros z Hz. unfold a1. destruct s0;
        rewrite ?elem_of_set_insert, ?elem_of_set_remove by done; naive_solver. }
    destruct (decide (p0 = p)) as [<-|Hne].
    + rewrite filter_cons_True by done. split; [discriminate|].
      intros s Hone. injection Hone as Hss Hrest. subst s.
      destruct (IHnil Hrest) as [Hl Hm]. rewrite Hl, lookup_insert_eq. split; [done|].
      rewrite Hm. unfold a1. destruct s0;
        rewrite ?elem_of_set_insert, ?elem_of_set_remove by done; naive_solver.
    + rewrite filter_cons_False by done. split.
      * intros Hnil. destruct (IHnil Hnil) as [Hl Hm].
        rewrite Hl, lookup_insert_ne by done. rewrite Hm. split; [done|]. by apply Ha1_other.
      * intros s Hone. destruct (IHone s Hone) as [Hl Hm]. split; [done|].
        rewrite Hm. rewrite Ha1_other by done. done.
Qed.

Lemma active_change_keys t tk bd p e : e ∈ active_change t tk bd p -> e.1 = p.
Proof.
  unfold active_change. repeat case_match; rewrite ?list_elem_of_singleton, ?elem_of_nil;
    intros He; subst; done.
Qed.

Lemma filter_fst_all {B} (l : list (GridPosition * B)) p :
  (forall e, e ∈ l -> e.1 = p) -> filter (fun e => e.1 = p) l = l.
Proof.
  induction l as [|e l IH]; intros Hl; [done|].
  rewrite filter_cons_True by (apply Hl, list_elem_of_here).
  f_equal. apply IH. intros e' He'. by apply Hl, list_elem_of_further.
Qed.

Lemma filter_fst_none {B} (l : list (GridPosition * B)) p :
  (forall e, e ∈ l -> e.1 <> p) -> filter (fun e => e.1 = p) l = [].
Proof.
  induction l as [|e l IH]; intros Hl; [done|].
  rewrite filter_cons_False by (apply Hl, list_elem_of_here).
  apply IH. intros e' He'. by apply Hl, list_elem_of_further.
Qed.

Lemma filter_active_changes t tk bd act p :
  NoDup act ->
  filter (fun e : GridPosition * TreeState => e.1 = p) (flat_map (active_change t tk bd) act) =
  if decide (p ∈ act) then active_change t tk bd p else [].
Proof.
  induction 1 as [|p' act Hp' Hnd IH]; [done|]. simpl.
  rewrite filter_app, IH.
  destruct (decide (p' = p)) as [<-|Hne].
  - rewrite (decide_True (P := p' ∈ p' :: act)) by apply list_elem_of_here.
    rewrite decide_False by done.
    rewrite app_nil_r. apply filter_fst_all. intros e He. by apply (active_change_keys t tk bd).
  - rewrite (filter_fst_none (active_change t tk bd p')).
    2:{ intros e He. rewrite (active_change_keys t tk bd p' e He). done. }
    simpl. apply decide_ext. rewrite elem_of_cons. naive_solver.
Qed.

Lemma filter_ignitions (ks : list GridPosition) p :
  NoDup ks ->
  filter (fun e : GridPosition * TreeState => e.1 = p) (map (fun k => (k, Catching)) ks) =
  if decide (p ∈ ks) then [(p, Catching)] else [].
Proof.
  induction 1 as [|k ks Hk Hnd IH]; [done|]. simpl.
  - destruct (decide (k = p)) as [<-|Hne].
    + rewrite filter_cons_True by done. rewrite IH, decide_False by done.
      rewrite decide_True by apply list_elem_of_here. done.
    + rewrite filter_cons_False by done. rewrite IH. apply decide_ext.
      rewrite elem_of_cons. naive_solver.
Qed.

End Commit.

(** ** One call of [tick] from a state satisfying the invariant *)

Section Step.
Context {F R : Type} `{Float64 F} `{RngCore R F}.

Lemma Forest_tick_step_full (f : Forest F R) :
  forest_inv f ->
  exists (mb : list (GridPosition * F)) (ks : list GridPosition) f',
    propagate (trees f) (tick f) (burn_duration f) (f_sub f_one (suceptibility f))
      (active f) (may_burn f) (changeset f) =
      Some (mb, flat_map (active_change (trees f) (tick f) (burn_duration f)) (active f)) /\
    keys_sorted mb /\
    (forall k, k ∈ mb.*1 <-> trees f !! k = Some Uncaught /\ burning_neighbors_count f k <> 0) /\
    (decide_ignitions mb (rng f)
       (flat_map (active_change (trees f) (tick f) (burn_duration f)) (active f))).2 =
      flat_map (active_change (trees f) (tick f) (burn_duration f)) (active f) ++
      map (fun k => (k, Catching)) ks /\
    Forest_tick f = Some f' /\
    (forall k, k ∈ ks -> trees f !! k = Some Uncaught /\ burning_neighbors_count f k <> 0) /\
    (forall p, trees f' !! p =
       cell_after (tick f) (burn_duration f) (bool_decide (p ∈ ks)) (trees f !! p)) /\
    forest_inv f' /\
    tick f' = (tick f + 1)%N /\
    grid_width f' = grid_width f /\ grid_height f' = grid_height f /\
    suceptibility f' = suceptibility f /\ burn_duration f' = burn_duration f.
Proof.
  intros (Hsort & Hact & Hmb & Hcs).
  set (q := f_sub f_one (suceptibility f)).
  destruct (propagate_Some (trees f) (tick f) (burn_duration f) q (active f)
              (may_burn f) (changeset f)) as (mb & Hprop & Hmbs & Hget).
  { intros p Hp. apply Hact in Hp. destruct (trees f !! p); [done|discriminate]. }
  { rewrite Hmb. constructor. }
  assert (Hkeys : forall k, k ∈ mb.*1 ->
            trees f !! k = Some Uncaught /\ burning_neighbors_count f k <> 0).
  { intros k Hk. apply may_burn_get_is_Some in Hk. specialize (Hget k). cbv zeta in Hget.
    rewrite Hget, Hmb in Hk. simpl in Hk.
    case_decide as Hc; [exact Hc|]. by destruct Hk. }
  destruct (decide_ignitions_changes mb (rng f)
              (changeset f ++ flat_map (active_change (trees f) (tick f) (burn_duration f)) (active f)))
    as (ks & Hks & Hksin & Hksnd).
  specialize (Hksnd (keys_sorted_NoDup _ Hmbs)).
  exists mb, ks.
  assert (Hmbk : forall k, k ∈ mb.*1 <->
            trees f !! k = Some Uncaught /\ burning_neighbors_count f k <> 0).
  { intros k. split; [apply Hkeys|]. intros Hk. apply may_burn_get_is_Some.
    specialize (Hget k). cbv zeta in Hget. rewrite Hget. unfold burning_neighbors_count in Hk.
    rewrite decide_True by exact Hk. done. }
  assert (Hks' := Hks). rewrite Hcs in Hks'. simpl in Hks'.
  unfold Forest_tick. fold q. rewrite Hprop.
  destruct (decide_ignitions mb (rng f) _) as [r' cs'] eqn:Hdec.
  simpl in Hks. rewrite Hcs in Hks. simpl in Hks.
  destruct (commit cs' (trees f) (active f)) as [t' a'] eqn:Hcom.
  destruct (commit_spec cs' (trees f) (active f) Hsort) as [Hsort' Hcell].
  rewrite Hcom in Hsort', Hcell. simpl in Hsort', Hcell.
  eexists. split; [by rewrite Hcs|]. split; [exact Hmbs|]. split; [exact Hmbk|].
  split; [exact Hks'|]. split; [reflexivity|].
  assert (Hfil : forall p, filter (fun e : GridPosition * TreeState => e.1 = p) cs' =
            (if decide (p ∈ active f) then active_change (trees f) (tick f) (burn_duration f) p else [])
            ++ (if decide (p ∈ ks) then [(p, Catching)] else [])).
  { intros p. rewrite Hks, filter_app, filter_active_changes, filter_ignitions;
      auto using StronglySorted_NoDup. }
  assert (Hcellp : forall p,
            t' !! p = cell_after (tick f) (burn_duration f) (bool_decide (p ∈ ks)) (trees f !! p) /\
            (p ∈ a' <-> is_active_state (t' !! p) = true)).
  { intros p. destruct (Hcell p) as [Hnil Hone]. specialize (Hfil p). pose proof (Hact p) as Hap.
    assert (Hks_unc : p ∈ ks -> trees f !! p = Some Uncaught)
      by (intros Hk; apply Hkeys, Hksin, Hk).
    destruct (trees f !! p) as [[| |u|]|] eqn:Hp; simpl in Hap.
    - rewrite (decide_False (P := p ∈ active f)) in Hfil by (rewrite Hap; discriminate).
      simpl in Hfil. destruct (decide (p ∈ ks)) as [Hk|Hk].
      + destruct (Hone _ Hfil) as [Hl Hm]. rewrite Hl, bool_decide_true by done.
        simpl. rewrite Hm. naive_solver.
      + destruct (Hnil Hfil) as [Hl Hm]. rewrite Hl, bool_decide_false by done.
        simpl. rewrite Hm, Hap. naive_solver.
    - assert (p ∉ ks) as Hk by (intros Hk; specialize (Hks_unc Hk); discriminate).
      rewrite (decide_True (P := p ∈ active f)) in Hfil by (by apply Hap).
      rewrite decide_False in Hfil by done.
      unfold active_change in Hfil. rewrite Hp in Hfil. simpl in Hfil.
      destruct (Hone _ Hfil) as [Hl Hm]. rewrite Hl. simpl. rewrite Hm. naive_solver.
    - assert (p ∉ ks) as Hk by (intros Hk; specialize (Hks_unc Hk); discriminate).
      rewrite (decide_True (P := p ∈ active f)) in Hfil by (by apply Hap).
      rewrite decide_False in Hfil by done.
      unfold active_change in Hfil. rewrite Hp in Hfil. simpl.
      destruct (u <=? tick f)%N; simpl in Hfil.
      + destruct (Hone _ Hfil) as [Hl Hm]. rewrite Hl. simpl. rewrite Hm. naive_solver.
      + destruct (Hnil Hfil) as [Hl Hm]. rewrite Hl. simpl. rewrite Hm, Hap. done.
    - assert (p ∉ ks) as Hk by (intros Hk; specialize (Hks_unc Hk); discriminate).
      rewrite (decide_False (P := p ∈ active f)) in Hfil by (rewrite Hap; discriminate).
      rewrite decide_False in Hfil by done.
      destruct (Hnil Hfil) as [Hl Hm]. rewrite Hl. simpl. rewrite Hm, Hap. done.
    - assert (p ∉ ks) as Hk by (intros Hk; specialize (Hks_unc Hk); discriminate).
      rewrite (decide_False (P := p ∈ active f)) in Hfil by (rewrite Hap; discriminate).
      rewrite decide_False in Hfil by done.
      destruct (Hnil Hfil) as [Hl Hm]. rewrite Hl. simpl. rewrite Hm, Hap. done. }
  split_and!; simpl; try done.
  - intros k Hk. apply Hkeys, Hksin, Hk.
  - intros p. apply Hcellp.
  - split_and!; [done| |done|done]. intros p. apply Hcellp.
Qed.

Lemma Forest_tick_step (f : Forest F R) :
  forest_inv f ->
  exists (ks : list GridPosition) f',
    Forest_tick f = Some f' /\
    (forall k, k ∈ ks -> trees f !! k = Some Uncaught /\ burning_neighbors_count f k <> 0) /\
    (forall p, trees f' !! p =
       cell_after (tick f) (burn_duration f) (bool_decide (p ∈ ks)) (trees f !! p)) /\
    forest_inv f' /\
    tick f' = (tick f + 1)%N /\
    grid_width f' = grid_width f /\ grid_height f' = grid_height f /\
    suceptibility f' = suceptibility f /\ burn_duration f' = burn_duration f.
Proof.
  intros Hf. destruct (Forest_tick_step_full f Hf) as (mb & ks & f' & _ & _ & _ & _ & Hrest).
  exists ks, f'. exact Hrest.
Qed.

End Step.

(** ** Construction and reachable states *)

Section Reachable.
Context {F R : Type} `{Float64 F} `{RngCore R F}.

Lemma foldl_preserves {A B} (g : A -> B -> A) (P : A -> Prop) (l : list B) a :
  P a -> (forall a b, P a -> P (g a b)) -> P (foldl g a l).
Proof. revert a. induction l as [|b l IH]; intros a Ha Hg; simpl; auto. Qed.

Lemma place_trees_uncaught w h (dens : F) (r : R) p s :
  (place_trees w h dens r).1 !! p = Some s -> s = Uncaught.
Proof.
  revert p s. unfold place_trees.
  apply (foldl_preserves _ (fun st => forall p s, st.1 !! p = Some s -> s = Uncaught)).
  - intros p s Hp. simpl in Hp. by rewrite lookup_empty in Hp.
  - intros st x0 Hst. apply foldl_preserves; [done|].
    intros [t r0] y0 Ht p s. unfold place_column.
    destruct (gen_bool dens r0) as [[] r']; simpl; [|apply Ht].
    rewrite lookup_insert. case_decide; [congruence|apply Ht].
Qed.

Lemma place_trees_none w h (dens : F) (r : R) :
  (forall r0, (gen_bool dens r0).1 = false) -> (place_trees w h dens r).1 = ∅.
Proof.
  intros Hno. unfold place_trees.
  apply (foldl_preserves _ (fun st => st.1 = ∅)); [done|].
  intros st x0 Hst. apply foldl_preserves; [done|].
  intros [t r0] y0 Ht. unfold place_column. specialize (Hno r0).
  destruct (gen_bool dens r0) as [b r']. simpl in *. by subst.
Qed.

Lemma Forest_new_trees w h (p : F) d dens (r : R) :
  trees (Forest_new w h p d dens r) = <[GridPosition_new (w / 2) (w / 2) := Catching]>
                                        (place_trees w h dens r).1.
Proof. unfold Forest_new. by destruct (place_trees w h dens r). Qed.

Lemma Forest_new_fields w h (p : F) d dens (r : R) :
  let f := Forest_new w h p d dens r in
  grid_width f = w /\ grid_height f = h /\ suceptibility f = p /\ burn_duration f = d /\
  active f = [GridPosition_new (w / 2) (w / 2)] /\ tick f = 0%N /\
  may_burn f = [] /\ changeset f = [].
Proof. unfold Forest_new. by destruct (place_trees w h dens r). Qed.

Lemma Forest_new_inv w h (p : F) d dens (r : R) : forest_inv (Forest_new w h p d dens r).
Proof.
  destruct (Forest_new_fields w h p d dens r) as (_ & _ & _ & _ & Ha & _ & Hm & Hc).
  unfold forest_inv. rewrite Ha, Hm, Hc, Forest_new_trees. split_and!; try done.
  - repeat constructor.
  - intros q. rewrite list_elem_of_singleton, lookup_insert.
    case_decide as Hq; [subst; naive_solver|].
    destruct ((place_trees w h dens r).1 !! q) as [s|] eqn:Hs; simpl; [|naive_solver].
    apply place_trees_uncaught in Hs. subst. naive_solver.
Qed.

Lemma reachable_inv (f : Forest F R) : reachable f -> forest_inv f.
Proof.
  induction 1 as [w h p d dens r|f f' Hr IH Ht].
  - apply Forest_new_inv.
  - destruct (Forest_tick_step f IH) as (ks & f'' & Ht' & _ & _ & Hinv & _).
    rewrite Ht in Ht'. by injection Ht' as ->.
Qed.

Lemma Forest_ticks_inv (f : Forest F R) n :
  forest_inv f ->
  exists f', Forest_ticks n f = Some f' /\ forest_inv f' /\
             tick f' = (tick f + N.of_nat n)%N /\ burn_duration f' = burn_duration f.
Proof.
  revert f. induction n as [|n IH]; intros f Hf; simpl.
  - exists f. split_and!; [done|done|lia|done].
  - destruct (Forest_tick_step f Hf) as (ks & f1 & Ht & _ & _ & Hinv1 & Htk & _ & _ & _ & Hbd).
    rewrite Ht. destruct (IH f1 Hinv1) as (f' & Hn & Hinv' & Htk' & Hbd').
    exists f'. split_and!; [done|done|lia|congruence].
Qed.

Lemma Forest_ticks_S (f : Forest F R) n f1 :
  Forest_tick f = Some f1 -> Forest_ticks (S n) f = Forest_ticks n f1.
Proof. intros Ht. simpl. by rewrite Ht. Qed.

Lemma Forest_ticks_add (f : Forest F R) n m :
  Forest_ticks (n + m) f = match Forest_ticks n f with None => None | Some f' => Forest_ticks m f' end.
Proof.
  revert f. induction n as [|n IH]; intros f; simpl; [done|].
  destruct (Forest_tick f); [apply IH|done].
Qed.

End Reachable.

(** ** The claims *)

Section Claims.
Context {F R : Type} `{Float64 F} `{RngCore R F}.

Lemma is_active_state_iff (s : option TreeState) :
  is_active_state s = true <-> s = Some Catching \/ exists u, s = Some (Burning u).
Proof. destruct s as [[]|]; simpl; split; intros Hs; try naive_solver. Qed.

(** C1. Active-set consistency: in every state reached by construction
    followed by calls of [tick], the active set holds exactly the
    coordinates whose state is [Catching] or [Burning]; across one call of
    [tick], a cell that turns from [Uncaught] to [Catching] enters the set
    and a cell that turns from [Burning] to [Burnt] leaves it. *)
Theorem active_set_consistency (f : Forest F R) :
  reachable f ->
  (forall p, p ∈ active f <->
             trees f !! p = Some Catching \/ exists u, trees f !! p = Some (Burning u)) /\
  (forall f', Forest_tick f = Some f' -> forall p,
    (trees f !! p = Some Uncaught -> trees f' !! p = Some Catching ->
       (p ∉ active f) /\ p ∈ active f') /\
    (forall u, trees f !! p = Some (Burning u) -> trees f' !! p = Some Burnt ->
       p ∈ active f /\ (p ∉ active f'))).
Proof.
  intros Hr. pose proof (reachable_inv f Hr) as (_ & Hact & _).
  split.
  - intros p. by rewrite Hact, is_active_state_iff.
  - intros f' Ht p.
    pose proof (reachable_inv f' (reachable_tick f f' Hr Ht)) as (_ & Hact' & _).
    split.
    + intros Hu Hc. rewrite Hact, Hact', Hu, Hc. simpl. split; [discriminate|done].
    + intros u Hb Hbt. rewrite Hact, Hact', Hb, Hbt. simpl. split; [done|discriminate].
Qed.

(** C2. Determinism: two engines built with the same parameters and the
    same random source state are equal after any number [n] of calls of
    [tick] (cell maps, active sets, clocks and random source states alike);
    in each of those states the active set is iterated in ascending
    coordinate order and the first loop builds the accumulator in
    ascending coordinate order, so the draws happen in that order. *)
Theorem determinism w h (p : F) d dens (r1 r2 : R) n :
  r1 = r2 ->
  Forest_ticks n (Forest_new w h p d dens r1) = Forest_ticks n (Forest_new w h p d dens r2) /\
  (forall f, Forest_ticks n (Forest_new w h p d dens r1) = Some f ->
    StronglySorted pos_lt (active f) /\
    (forall mb cs,
      propagate (trees f) (tick f) (burn_duration f) (f_sub f_one (suceptibility f))
        (active f) (may_burn f) (changeset f) = Some (mb, cs) ->
      keys_sorted mb)).
Proof.
  intros <-. split; [done|].
  intros f Hf.
  destruct (Forest_ticks_inv (Forest_new w h p d dens r1) n (Forest_new_inv _ _ _ _ _ _))
    as (f' & Hf' & Hinv & _).
  rewrite Hf in Hf'. injection Hf' as <-.
  destruct Hinv as (Hsort & Hact & Hmb & Hcs). split; [done|].
  intros mb cs Hprop.
  destruct (propagate_Some (trees f) (tick f) (burn_duration f) (f_sub f_one (suceptibility f))
              (active f) (may_burn f) (changeset f)) as (mb' & Hprop' & Hs' & _).
  { intros q Hq. apply Hact in Hq. destruct (trees f !! q); [done|discriminate]. }
  { rewrite Hmb. constructor. }
  rewrite Hprop in Hprop'. by injection Hprop' as -> _.
Qed.

(** C3. Monotonic state progression: across one call of [tick] from a
    reachable state, every cell keeps its state or moves strictly forward
    along [Uncaught -> Catching -> Burning -> Burnt]; no cell leaves the
    map. *)
Theorem monotonic_progression (f f' : Forest F R) :
  reachable f -> Forest_tick f = Some f' ->
  forall p s, trees f !! p = Some s ->
  exists s', trees f' !! p = Some s' /\ (s' = s \/ state_rank s < state_rank s').
Proof.
  intros Hr Ht p s Hs.
  destruct (Forest_tick_step f (reachable_inv f Hr)) as (ks & f'' & Ht' & _ & Hcell & _).
  rewrite Ht in Ht'. injection Ht' as <-.
  rewrite Hcell, Hs. destruct s as [| |u|]; simpl.
  - destruct (bool_decide (p ∈ ks)); eexists; split; [done| |done|]; simpl; auto.
  - eexists; split; [done|]. simpl. right. lia.
  - destruct (u <=? tick f)%N; eexists; split; [done| |done|]; simpl; auto.
  - eexists; split; [done|]. auto.
Qed.

End Claims.

Section Claims2.
Context {F R : Type} `{Float64 F} `{RngCore R F}.

Lemma burning_step (g : Forest F R) p u :
  forest_inv g -> trees g !! p = Some (Burning u) ->
  exists g', Forest_tick g = Some g' /\ forest_inv g' /\ tick g' = (tick g + 1)%N /\
    burn_duration g' = burn_duration g /\
    trees g' !! p = Some (if (u <=? tick g)%N then Burnt else Burning u).
Proof.
  intros Hg Hp.
  destruct (Forest_tick_step g Hg) as (ks & g' & Ht & _ & Hcell & Hinv & Htk & _ & _ & _ & Hbd).
  exists g'. split_and!; try done. rewrite Hcell, Hp. simpl. by destruct (u <=? tick g)%N.
Qed.

(** C4 (amended). Burn duration, for a burn duration [D >= 1]: a cell
    that is [Catching] when [tick] is called with counter [T] becomes
    [Burning (T + D)] in that call when [T + D < 2^64]; it stays
    [Burning (T + D)] after each of the first [D] calls and is [Burnt]
    after the next one, the call with counter [T + D]. When
    [T + D >= 2^64] (with [T] and [D] [usize] values) the release-build
    sum wraps: the cell becomes [Burning (T + D - 2^64)] and is [Burnt]
    after the call with counter [T + 1]. *)
Theorem burn_duration_contract (f : Forest F R) p :
  reachable f -> trees f !! p = Some Catching -> (1 <= burn_duration f)%N ->
  ((tick f + burn_duration f < 2 ^ 64)%N ->
   (forall k : nat, 1 <= k -> (N.of_nat k <= burn_duration f)%N ->
      exists f', Forest_ticks k f = Some f' /\ tick f' = (tick f + N.of_nat k)%N /\
                 trees f' !! p = Some (Burning (tick f + burn_duration f))) /\
   (exists f', Forest_ticks (S (N.to_nat (burn_duration f))) f = Some f' /\
               tick f' = (tick f + burn_duration f + 1)%N /\
               trees f' !! p = Some Burnt)) /\
  ((tick f < 2 ^ 64)%N -> (burn_duration f < 2 ^ 64)%N ->
   (2 ^ 64 <= tick f + burn_duration f)%N ->
   exists f1 f2, Forest_ticks 1 f = Some f1 /\
     trees f1 !! p = Some (Burning (tick f + burn_duration f - 2 ^ 64)) /\
     Forest_ticks 2 f = Some f2 /\ trees f2 !! p = Some Burnt).
Proof.
  intros Hr Hp HD. pose proof (reachable_inv f Hr) as Hf.
  set (T := tick f). set (D := burn_duration f).
  destruct (Forest_tick_step f Hf) as (ks & f1 & Ht1 & _ & Hcell1 & Hinv1 & Htk1 & _ & _ & _ & Hbd1).
  assert (Hp1 : trees f1 !! p = Some (Burning (usize_add T D))) by (rewrite Hcell1, Hp; done).
  split.
  - intros Hsmall. rewrite usize_add_small in Hp1 by exact Hsmall.
    assert (Hk : forall k : nat, 1 <= k -> (N.of_nat k <= D)%N ->
       exists f', Forest_ticks k f = Some f' /\ forest_inv f' /\ tick f' = (T + N.of_nat k)%N /\
                  burn_duration f' = D /\ trees f' !! p = Some (Burning (T + D))).
    { induction k as [|k IH]; intros H1 Hle; [lia|].
      destruct (decide (k = 0)) as [->|Hk0].
      - exists f1. simpl. rewrite Ht1. split_and!; try done; unfold T; lia.
      - destruct IH as (fk & Hfk & Hinvk & Htkk & Hbdk & Hpk); [lia|lia|].
        destruct (burning_step fk p (T + D) Hinvk Hpk) as (fk' & Ht & Hinv' & Htk' & Hbd' & Hp').
        exists fk'. replace (S k) with (k + 1) by lia.
        rewrite Forest_ticks_add, Hfk. simpl. rewrite Ht. split_and!; try done; [lia|congruence|].
        rewrite Hp'. replace ((T + D <=? tick fk)%N) with false; [done|].
        symmetry. apply N.leb_gt. lia. }
    split.
    + intros k H1 Hle. destruct (Hk k H1 Hle) as (f' & ? & _ & ? & _ & ?). eauto.
    + destruct (Hk (N.to_nat D)) as (fm & Hfm & Hinvm & Htkm & Hbdm & Hpm); [lia|lia|].
      destruct (burning_step fm p (T + D) Hinvm Hpm) as (fm' & Ht & _ & Htk' & _ & Hp').
      exists fm'. replace (S (N.to_nat D)) with (N.to_nat D + 1) by lia.
      rewrite Forest_ticks_add, Hfm. simpl. rewrite Ht. split_and!; [done|lia|].
      rewrite Hp'. replace ((T + D <=? tick fm)%N) with true; [done|].
      symmetry. apply N.leb_le. lia.
  - intros HT HDb Hwrap. rewrite usize_add_wrap in Hp1 by done.
    destruct (burning_step f1 p (T + D - 2 ^ 64) Hinv1 Hp1) as (f2 & Ht2 & _ & _ & _ & Hp2).
    exists f1, f2. split_and!.
    + simpl. by rewrite Ht1.
    + exact Hp1.
    + simpl. by rewrite Ht1, Ht2.
    + rewrite Hp2. replace ((T + D - 2 ^ 64 <=? tick f1)%N) with true; [done|].
      symmetry. apply N.leb_le. unfold T, D in *. lia.
Qed.

End Claims2.

Section Claims3.
Context {F R : Type} `{Float64 F} `{RngCore R F}.

Lemma decide_ignitions_logged (mb : list (GridPosition * F)) (r : R) log cs :
  exists outcomes : list bool,
    length outcomes = length mb /\
    @decide_ignitions F (R * list (F * bool)) logged_rng mb (r, log) cs =
      (((decide_ignitions mb r cs).1, log ++ zip mb.*2 outcomes),
       (decide_ignitions mb r cs).2) /\
    (decide_ignitions mb r cs).2 =
      cs ++ map (fun e => (e.1, Catching)) (filter (fun e => e.2 = false) (zip mb.*1 outcomes)).
Proof.
  revert r log cs. induction mb as [|[k v] mb IH]; intros r log cs; simpl.
  - exists []. by rewrite !app_nil_r.
  - destruct (gen_bool v r) as [b r'] eqn:Hg. simpl.
    destruct (IH r' (log ++ [(v, b)]) (if b then cs else cs ++ [(k, Catching)]))
      as (outs & Hlen & Hlog & Hcs).
    exists (b :: outs). split_and!; [simpl; lia| |].
    + rewrite Hlog, <- app_assoc. done.
    + rewrite Hcs. destruct b; simpl; [done|]. by rewrite <- app_assoc.
Qed.

(** C5. Pending-ignition accumulation: from a reachable state, the first
    loop of [tick] ends with an accumulator, in ascending key order, that
    maps exactly the [Uncaught] trees with [k <> 0] active [Burning]
    neighbours to [1.0 * (1 - p) * ... * (1 - p)] ([k] factors, [p] the
    susceptibility); the second loop draws once per entry, in order, with
    the entry's value as probability (as recorded by [logged_rng]), and
    schedules [Catching] for exactly the entries whose draw failed; after
    the call the accumulator is empty. *)
Theorem pending_ignition_accumulation (f : Forest F R) :
  reachable f ->
  exists mb cs,
    propagate (trees f) (tick f) (burn_duration f) (f_sub f_one (suceptibility f))
      (active f) (may_burn f) (changeset f) = Some (mb, cs) /\
    keys_sorted mb /\
    (forall k, may_burn_get k mb =
       if decide (trees f !! k = Some Uncaught /\ burning_neighbors_count f k <> 0)
       then Some (fpow (f_sub f_one (suceptibility f)) (burning_neighbors_count f k))
       else None) /\
    (forall log : list (F * bool), exists outcomes : list bool,
       length outcomes = length mb /\
       @decide_ignitions F (R * list (F * bool)) logged_rng mb (rng f, log) cs =
         (((decide_ignitions mb (rng f) cs).1, log ++ zip mb.*2 outcomes),
          (decide_ignitions mb (rng f) cs).2) /\
       (decide_ignitions mb (rng f) cs).2 =
         cs ++ map (fun e => (e.1, Catching)) (filter (fun e => e.2 = false) (zip mb.*1 outcomes))) /\
    (forall f', Forest_tick f = Some f' -> may_burn f' = []).
Proof.
  intros Hr. destruct (reachable_inv f Hr) as (Hsort & Hact & Hmb & Hcs).
  destruct (propagate_Some (trees f) (tick f) (burn_duration f) (f_sub f_one (suceptibility f))
              (active f) (may_burn f) (changeset f)) as (mb & Hprop & Hs & Hget).
  { intros q Hq. apply Hact in Hq. destruct (trees f !! q); [done|discriminate]. }
  { rewrite Hmb. constructor. }
  exists mb, (changeset f ++ flat_map (active_change (trees f) (tick f) (burn_duration f)) (active f)).
  split_and!; [done|done| | |].
  - intros k. specialize (Hget k). cbv zeta in Hget. rewrite Hget, Hmb. simpl.
    unfold burning_neighbors_count. done.
  - intros log. apply decide_ignitions_logged.
  - intros f' Ht. unfold Forest_tick in Ht. rewrite Hprop in Ht.
    repeat case_match. by injection Ht as <-.
Qed.

Lemma Forest_ticks_reachable (f f' : Forest F R) n :
  reachable f -> Forest_ticks n f = Some f' -> reachable f'.
Proof.
  revert f. induction n as [|n IH]; intros f Hr Hn; simpl in Hn.
  - by injection Hn as <-.
  - destruct (Forest_tick f) as [f1|] eqn:Ht; [|discriminate].
    exact (IH f1 (reachable_tick f f1 Hr Ht) Hn).
Qed.

(** C8. Steady state: [steady_state] holds exactly when the active set is
    empty; from a reachable steady state, [tick] returns the same state
    with only the counter incremented by one (cell map, active set,
    accumulator, change buffer and random source unchanged); every call of
    [tick] increments the counter by exactly one, and construction sets
    it to 0. *)
Theorem steady_state_semantics (f : Forest F R) :
  reachable f ->
  (Forest_steady_state f = true <-> active f = []) /\
  (Forest_steady_state f = true ->
     Forest_tick f = Some {| grid_width := grid_width f; grid_height := grid_height f;
                             suceptibility := suceptibility f; burn_duration := burn_duration f;
                             rng := rng f; trees := trees f; active := active f;
                             tick := (tick f + 1)%N; may_burn := may_burn f;
                             changeset := changeset f |}) /\
  (forall f', Forest_tick f = Some f' -> tick f' = (tick f + 1)%N) /\
  (forall w h (p : F) d dens (r : R), tick (Forest_new w h p d dens r) = 0%N).
Proof.
  intros Hr. pose proof (reachable_inv f Hr) as (_ & _ & Hmb & Hcs).
  assert (Hiff : Forest_steady_state f = true <-> active f = []).
  { unfold Forest_steady_state. rewrite Nat.eqb_eq. apply length_zero_iff_nil. }
  split_and!; [done| | |].
  - intros Hs. apply Hiff in Hs. unfold Forest_tick. rewrite Hs, Hmb, Hcs. simpl.
    destruct f; simpl in *; subst; done.
  - intros f' Ht. unfold Forest_tick in Ht.
    repeat case_match; try discriminate. by injection Ht as <-.
  - intros w h p d dens r. apply Forest_new_fields.
Qed.

(** C9. Active lookups never fail: in every reachable state each active
    coordinate is a key of the cell map and [tick] does not panic; in any
    state where an active coordinate is missing from the map, [tick]
    panics ([expect]) instead of returning a state. *)
Theorem active_lookup_total (f : Forest F R) :
  reachable f ->
  (forall p, p ∈ active f -> is_Some (trees f !! p)) /\
  (exists f', Forest_tick f = Some f') /\
  (forall (g : Forest F R) p, p ∈ active g -> trees g !! p = None -> Forest_tick g = None).
Proof.
  intros Hr. pose proof (reachable_inv f Hr) as Hinv.
  split_and!.
  - intros p Hp. destruct Hinv as (_ & Hact & _). apply Hact in Hp.
    destruct (trees f !! p); [done|discriminate].
  - destruct (Forest_tick_step f Hinv) as (ks & f' & Ht & _). eauto.
  - intros g p Hp Hn. unfold Forest_tick. rewrite propagate_None; eauto.
Qed.

(** C10. Ignition placement: construction puts one [Catching] cell at
    [(grid_width / 2, grid_width / 2)], both components taken from the
    width, over whatever the density sampling placed there; the initial
    active set is that single coordinate, every other cell is absent or
    [Uncaught], and when every density draw fails (density 0) the cell map
    is exactly that one cell. *)
Theorem ignition_placement w h (p : F) d (dens : F) (r : R) :
  let f := Forest_new w h p d dens r in
  let center := GridPosition_new (w / 2) (w / 2) in
  trees f !! center = Some Catching /\
  active f = [center] /\
  (forall q, q <> center -> trees f !! q = None \/ trees f !! q = Some Uncaught) /\
  ((forall r0, (gen_bool dens r0).1 = false) -> trees f = {[center := Catching]}).
Proof.
  cbv zeta. rewrite Forest_new_trees.
  destruct (Forest_new_fields w h p d dens r) as (_ & _ & _ & _ & Ha & _).
  split_and!; [by rewrite lookup_insert_eq|done| |].
  - intros q Hq. rewrite lookup_insert_ne by congruence.
    destruct ((place_trees w h dens r).1 !! q) as [s|] eqn:Hs; [|by left].
    right. by rewrite (place_trees_uncaught w h dens r q s Hs).
  - intros Hno. rewrite place_trees_none by done. by rewrite insert_empty.
Qed.

End Claims3.

Section Geometry.

Lemma neighbor_at_small pos (d : Z * Z) :
  (x pos < 2 ^ 63 - 1)%N -> (y pos < 2 ^ 63 - 1)%N ->
  (-1 <= d.1 <= 1)%Z -> (-1 <= d.2 <= 1)%Z ->
  neighbor_at pos d =
    (let x' := (Z.of_N (x pos) + d.1)%Z in
     let y' := (Z.of_N (y pos) + d.2)%Z in
     if (0 <=? x')%Z && (0 <=? y')%Z
     then Some (GridPosition_new (Z.to_N x') (Z.to_N y'))
     else None).
Proof.
  destruct pos as [a b], d as [d1 d2]. simpl. intros Ha Hb Hd1 Hd2.
  unfold neighbor_at, usize_as_isize, isize_checked_add, isize_min, isize_max. simpl.
  assert (E1 : (Z.of_N a <? 2 ^ 63)%Z = true) by (apply Z.ltb_lt; lia).
  assert (E2 : (Z.of_N b <? 2 ^ 63)%Z = true) by (apply Z.ltb_lt; lia).
  rewrite E1, E2.
  assert (E3 : ((- 2 ^ 63 <=? Z.of_N a + d1) && (Z.of_N a + d1 <=? 2 ^ 63 - 1))%Z = true)
    by (apply andb_true_iff; split; apply Z.leb_le; lia).
  assert (E4 : ((- 2 ^ 63 <=? Z.of_N b + d2) && (Z.of_N b + d2 <=? 2 ^ 63 - 1))%Z = true)
    by (apply andb_true_iff; split; apply Z.leb_le; lia).
  rewrite E3, E4. done.
Qed.

(** C7 (amended). Neighbourhood: for a coordinate whose components are
    both below [isize::MAX], [neighbors] yields exactly the coordinates
    [pos + d] for the offsets [d] of [DELTAS], in that order, leaving out
    those with a negative component. [neighbors] is a function of [pos]
    alone. *)
Theorem neighbors_below_isize_max pos :
  (x pos < 2 ^ 63 - 1)%N -> (y pos < 2 ^ 63 - 1)%N ->
  neighbors pos = neighbors_spec pos.
Proof.
  intros Hx Hy. unfold neighbors, neighbors_spec. apply list_omap_ext.
  unfold DELTAS.
  repeat (constructor; [apply neighbor_at_small; simpl; lia|]). constructor.
Qed.

End Geometry.

(** ** Evaluations at concrete inputs *)

Import Concrete.

(** C7. At [x = isize::MAX] the offset [(1, 0)] overflows [checked_add]
    and is dropped, while the spec's wording keeps [(2^63, 0)]. *)
Lemma neighbors_isize_max_counterexample :
  neighbors (GridPosition_new (2 ^ 63 - 1) 0) <> neighbors_spec (GridPosition_new (2 ^ 63 - 1) 0).
Proof. vm_compute. discriminate. Qed.

(** C4. With burn duration [usize::MAX = 2^64 - 1] in a full 3 by 3
    grid with susceptibility 1, the cell [(0, 0)] is [Catching] when
    [tick] is called with counter 2. The claim gives it the payload
    [2 + (2^64 - 1)]; the release-build sum wraps, the cell becomes
    [Burning 1] and is [Burnt] after the call with counter 3. *)
Lemma burn_duration_wrap_counterexample :
  match Forest_ticks 2 flammable_3x3_dmax, Forest_ticks 3 flammable_3x3_dmax,
        Forest_ticks 4 flammable_3x3_dmax with
  | Some f2, Some f3, Some f4 =>
      tick f2 = 2%N /\ burn_duration f2 = (2 ^ 64 - 1)%N /\
      trees f2 !! GridPosition_new 0 0 = Some Catching /\
      trees f3 !! GridPosition_new 0 0 = Some (Burning 1) /\
      trees f4 !! GridPosition_new 0 0 = Some Burnt
  | _, _, _ => False
  end.
Proof. vm_compute. split_and!; reflexivity. Qed.

(** C6. Construction places the ignition cell at [(5, 5)] in a grid of
    width 10 and height 2: a cell of the map, and of the active set, whose
    [y] is not below the grid height. *)
Theorem ignition_outside_grid :
  trees wide_10x2 !! GridPosition_new 5 5 = Some Catching /\
  GridPosition_new 5 5 ∈ active wide_10x2 /\
  (grid_height wide_10x2 <= 5)%N.
Proof.
  split_and!.
  - vm_compute. reflexivity.
  - vm_compute. constructor.
  - vm_compute. discriminate.
Qed.

Lemma active_set_consistency_witness :
  reachable full_3x3 /\
  (forall p, p ∈ active full_3x3 <->
             trees full_3x3 !! p = Some Catching \/ exists u, trees full_3x3 !! p = Some (Burning u)) /\
  (forall f', Forest_tick full_3x3 = Some f' -> forall p,
    (trees full_3x3 !! p = Some Uncaught -> trees f' !! p = Some Catching ->
       (p ∉ active full_3x3) /\ p ∈ active f') /\
    (forall u, trees full_3x3 !! p = Some (Burning u) -> trees f' !! p = Some Burnt ->
       p ∈ active full_3x3 /\ (p ∉ active f'))).
Proof.
  assert (Hr : reachable full_3x3) by constructor.
  split; [exact Hr|]. exact (active_set_consistency full_3x3 Hr).
Defined.

Lemma determinism_witness :
  (0%nat = 0%nat) /\
  Forest_ticks 3 (Forest_new 3 3 (1#2) 2 1%Q 0%nat) = Forest_ticks 3 (Forest_new 3 3 (1#2) 2 1%Q 0%nat) /\
  (forall f, Forest_ticks 3 (Forest_new 3 3 (1#2) 2 1%Q 0%nat) = Some f ->
    StronglySorted pos_lt (active f) /\
    (forall mb cs,
      propagate (trees f) (tick f) (burn_duration f) (f_sub f_one (suceptibility f))
        (active f) (may_burn f) (changeset f) = Some (mb, cs) ->
      keys_sorted mb)).
Proof.
  split; [reflexivity|]. apply (determinism 3 3 (1#2) 2 1%Q 0%nat 0%nat 3). reflexivity.
Defined.

Lemma monotonic_progression_witness :
  exists f f', Forest_ticks 1 full_3x3 = Some f /\ reachable f /\ Forest_tick f = Some f' /\
    forall p s, trees f !! p = Some s ->
    exists s', trees f' !! p = Some s' /\ (s' = s \/ state_rank s < state_rank s').
Proof.
  destruct (Forest_ticks 1 full_3x3) as [f|] eqn:E1; [|vm_compute in E1; discriminate].
  destruct (Forest_tick f) as [f'|] eqn:E2.
  - exists f, f'.
    assert (Hr : reachable f) by (eapply Forest_ticks_reachable; [constructor|exact E1]).
    split_and!; [reflexivity|exact Hr|exact E2|].
    exact (monotonic_progression f f' Hr E2).
  - vm_compute in E1. injection E1 as <-. vm_compute in E2. discriminate.
Defined.

Lemma burn_duration_contract_witness :
  exists f, Forest_ticks 2 flammable_3x3_dmax = Some f /\ reachable f /\
  trees f !! GridPosition_new 0 0 = Some Catching /\ (1 <= burn_duration f)%N /\
  ((tick f + burn_duration f < 2 ^ 64)%N ->
   (forall k : nat, 1 <= k -> (N.of_nat k <= burn_duration f)%N ->
      exists f', Forest_ticks k f = Some f' /\ tick f' = (tick f + N.of_nat k)%N /\
                 trees f' !! GridPosition_new 0 0 = Some (Burning (tick f + burn_duration f))) /\
   (exists f', Forest_ticks (S (N.to_nat (burn_duration f))) f = Some f' /\
               tick f' = (tick f + burn_duration f + 1)%N /\
               trees f' !! GridPosition_new 0 0 = Some Burnt)) /\
  ((tick f < 2 ^ 64)%N -> (burn_duration f < 2 ^ 64)%N ->
   (2 ^ 64 <= tick f + burn_duration f)%N ->
   exists f1 f2, Forest_ticks 1 f = Some f1 /\
     trees f1 !! GridPosition_new 0 0 = Some (Burning (tick f + burn_duration f - 2 ^ 64)) /\
     Forest_ticks 2 f = Some f2 /\ trees f2 !! GridPosition_new 0 0 = Some Burnt).
Proof.
  destruct (Forest_ticks 2 flammable_3x3_dmax) as [f|] eqn:E1; [|vm_compute in E1; discriminate].
  exists f.
  assert (Hr : reachable f) by (eapply Forest_ticks_reachable; [constructor|exact E1]).
  assert (Hc : trees f !! GridPosition_new 0 0 = Some Catching)
    by (vm_compute in E1; injection E1 as <-; vm_compute; reflexivity).
  assert (HD : (1 <= burn_duration f)%N)
    by (vm_compute in E1; injection E1 as <-; vm_compute; discriminate).
  split; [reflexivity|]. split; [exact Hr|]. split; [exact Hc|]. split; [exact HD|].
  exact (burn_duration_contract f (GridPosition_new 0 0) Hr Hc HD).
Defined.

Lemma pending_ignition_accumulation_witness :
  exists f, Forest_ticks 1 full_3x3 = Some f /\ reachable f /\
  exists mb cs,
    propagate (trees f) (tick f) (burn_duration f) (f_sub f_one (suceptibility f))
      (active f) (may_burn f) (changeset f) = Some (mb, cs) /\
    keys_sorted mb /\
    (forall k, may_burn_get k mb =
       if decide (trees f !! k = Some Uncaught /\ burning_neighbors_count f k <> 0)
       then Some (fpow (f_sub f_one (suceptibility f)) (burning_neighbors_count f k))
       else None) /\
    (forall log : list (Q * bool), exists outcomes : list bool,
       length outcomes = length mb /\
       @decide_ignitions Q (nat * list (Q * bool)) logged_rng mb (rng f, log) cs =
         (((decide_ignitions mb (rng f) cs).1, log ++ zip mb.*2 outcomes),
          (decide_ignitions mb (rng f) cs).2) /\
       (decide_ignitions mb (rng f) cs).2 =
         cs ++ map (fun e => (e.1, Catching)) (filter (fun e => e.2 = false) (zip mb.*1 outcomes))) /\
    (forall f', Forest_tick f = Some f' -> may_burn f' = []).
Proof.
  destruct (Forest_ticks 1 full_3x3) as [f|] eqn:E1; [|vm_compute in E1; discriminate].
  exists f.
  assert (Hr : reachable f) by (eapply Forest_ticks_reachable; [constructor|exact E1]).
  split; [reflexivity|]. split; [exact Hr|].
  exact (pending_ignition_accumulation f Hr).
Defined.

Lemma steady_state_semantics_witness :
  exists f, Forest_ticks 2 single_tree = Some f /\ reachable f /\
  Forest_steady_state f = true /\
  (Forest_steady_state f = true <-> active f = []) /\
  (Forest_steady_state f = true ->
     Forest_tick f = Some {| grid_width := grid_width f; grid_height := grid_height f;
                             suceptibility := suceptibility f; burn_duration := burn_duration f;
                             rng := rng f; trees := trees f; active := active f;
                             tick := (tick f + 1)%N; may_burn := may_burn f;
                             changeset := changeset f |}) /\
  (forall f', Forest_tick f = Some f' -> tick f' = (tick f + 1)%N) /\
  (forall w h (p : Q) d dens (r : nat), tick (Forest_new w h p d dens r) = 0%N).
Proof.
  destruct (Forest_ticks 2 single_tree) as [f|] eqn:E1; [|vm_compute in E1; discriminate].
  exists f.
  assert (Hr : reachable f) by (eapply Forest_ticks_reachable; [constructor|exact E1]).
  assert (Hs : Forest_steady_state f = true) by (vm_compute in E1; injection E1 as <-; reflexivity).
  split; [reflexivity|]. split; [exact Hr|]. split; [exact Hs|].
  exact (steady_state_semantics f Hr).
Defined.

Lemma active_lookup_total_witness :
  reachable full_3x3 /\
  (forall p, p ∈ active full_3x3 -> is_Some (trees full_3x3 !! p)) /\
  (exists f', Forest_tick full_3x3 = Some f') /\
  (forall (g : Forest Q nat) p, p ∈ active g -> trees g !! p = None -> Forest_tick g = None).
Proof.
  assert (Hr : reachable full_3x3) by constructor.
  split; [exact Hr|]. exact (active_lookup_total full_3x3 Hr).
Defined.

Lemma ignition_placement_witness :
  (forall r0 : nat, (gen_bool 0%Q r0).1 = false) /\
  trees (Forest_new 4 2 (1#2) 1 0%Q 0%nat) !! GridPosition_new 2 2 = Some Catching /\
  trees (Forest_new 4 2 (1#2) 1 0%Q 0%nat) = {[GridPosition_new 2 2 := Catching]}.
Proof.
  assert (Hno : forall r0 : nat, (gen_bool 0%Q r0).1 = false).
  { intros r0. simpl. unfold Qle_bool. simpl. apply Z.leb_gt. lia. }
  pose proof (ignition_placement 4 2 (1#2) 1 0%Q 0%nat) as (Hc & _ & _ & Hd).
  split; [exact Hno|]. split; [exact Hc|]. exact (Hd Hno).
Defined.

Lemma neighbors_below_isize_max_witness :
  (x (GridPosition_new 0 3) < 2 ^ 63 - 1)%N /\ (y (GridPosition_new 0 3) < 2 ^ 63 - 1)%N /\
  neighbors (GridPosition_new 0 3) = neighbors_spec (GridPosition_new 0 3).
Proof.
  assert (Hx : (x (GridPosition_new 0 3) < 2 ^ 63 - 1)%N) by (vm_compute; reflexivity).
  assert (Hy : (y (GridPosition_new 0 3) < 2 ^ 63 - 1)%N) by (vm_compute; reflexivity).
  split; [exact Hx|]. split; [exact Hy|].
  exact (neighbors_below_isize_max (GridPosition_new 0 3) Hx Hy).
Defined.

(** ** Further properties of the engine *)

Section Termination.
Context {F R : Type} `{Float64 F} `{RngCore R F}.

Lemma cell_potential_step tk bd b s :
  cell_potential (tk + 1) bd (cell_after tk bd b s) <= cell_potential tk bd s /\
  (is_active_state s = true ->
   cell_potential (tk + 1) bd (cell_after tk bd b s) < cell_potential tk bd s).
Proof.
  destruct s as [[| |u|]|]; simpl; try (split; [lia|discriminate]).
  - destruct b; simpl; split; [lia|discriminate|lia|discriminate].
  - pose proof (usize_add_le tk bd). split; intros; lia.
  - destruct (u <=? tk)%N eqn:E; simpl.
    + split; intros; lia.
    + apply N.leb_gt in E. split; intros; lia.
Qed.

Lemma sum_list_map_le {A} (g h : A -> nat) (l : list A) :
  (forall a, a ∈ l -> g a <= h a) -> sum_list (map g l) <= sum_list (map h l).
Proof.
  induction l as [|a l IH]; simpl; intros Hle; [lia|].
  pose proof (Hle a (list_elem_of_here a l)).
  assert (sum_list (map g l) <= sum_list (map h l)).
  { apply IH. intros b Hb. apply Hle. by apply list_elem_of_further. }
  lia.
Qed.

Lemma sum_list_map_lt {A} (g h : A -> nat) (l : list A) a :
  (forall a, a ∈ l -> g a <= h a) -> a ∈ l -> g a < h a ->
  sum_list (map g l) < sum_list (map h l).
Proof.
  induction l as [|b l IH]; simpl; intros Hle Ha Hlt; [by apply elem_of_nil in Ha|].
  assert (Hl : forall c, c ∈ l -> g c <= h c)
    by (intros c Hc; apply Hle; by apply list_elem_of_further).
  apply elem_of_cons in Ha as [->|Ha].
  - pose proof (sum_list_map_le g h l Hl). lia.
  - pose proof (Hle b (list_elem_of_here b l)). pose proof (IH Hl Ha Hlt). lia.
Qed.

Lemma cell_after_is_Some tk bd b s : is_Some (cell_after tk bd b s) <-> is_Some s.
Proof.
  destruct s as [[| |u|]|]; simpl; try done.
  destruct (u <=? tk)%N; done.
Qed.

Lemma fire_potential_step ks (f : Forest F R) :
  forest_inv f ->
  exists f', Forest_tick f = Some f' /\ forest_inv f' /\
    (forall p, is_Some (trees f' !! p) <-> is_Some (trees f !! p)) /\
    fire_potential ks f' <= fire_potential ks f /\
    (forall p, p ∈ active f -> p ∈ ks -> fire_potential ks f' < fire_potential ks f).
Proof.
  intros Hf.
  destruct (Forest_tick_step f Hf)
    as (ksi & f' & Ht & _ & Hcell & Hinv & Htk & _ & _ & _ & Hbd).
  exists f'. unfold fire_potential. rewrite Htk, Hbd.
  assert (Hle : forall k, k ∈ ks ->
    cell_potential (tick f + 1) (burn_duration f) (trees f' !! k) <=
    cell_potential (tick f) (burn_duration f) (trees f !! k)).
  { intros k _. rewrite Hcell. apply cell_potential_step. }
  split_and!; [done|done| |by apply sum_list_map_le|].
  - intros p. rewrite Hcell. apply cell_after_is_Some.
  - intros p Hp Hk. apply (sum_list_map_lt _ _ _ p Hle Hk).
    rewrite Hcell. apply cell_potential_step.
    destruct Hf as (_ & Hact & _). by apply Hact.
Qed.

Lemma ticks_to_steady ks (f : Forest F R) b :
  forest_inv f ->
  (forall p, is_Some (trees f !! p) -> p ∈ ks) ->
  fire_potential ks f <= b ->
  exists n f', n <= b /\ Forest_ticks n f = Some f' /\ Forest_steady_state f' = true.
Proof.
  revert f. induction b as [|b IH]; intros f Hf Hks Hb;
    (destruct (Forest_steady_state f) eqn:Hs; [exists 0, f; split_and!; [lia|done|done]|]);
    unfold Forest_steady_state in Hs; apply Nat.eqb_neq in Hs;
    destruct (active f) as [|p act] eqn:Ha; try (simpl in Hs; lia);
    assert (Hp : p ∈ active f) by (rewrite Ha; apply list_elem_of_here);
    assert (Hpk : p ∈ ks)
      by (apply Hks; destruct Hf as (_ & Hact & _); apply Hact in Hp;
          destruct (trees f !! p); [done|discriminate]);
    destruct (fire_potential_step ks f Hf) as (f' & Ht & Hinv' & Hdom & _ & Hlt);
    specialize (Hlt p Hp Hpk).
  - lia.
  - destruct (IH f' Hinv') as (n & f'' & Hn & Hticks & Hst).
    + intros q Hq. apply Hks. by apply Hdom.
    + lia.
    + exists (S n), f''. split_and!; [lia| |done]. simpl. by rewrite Ht.
Qed.

Lemma burning_bounded_step (f f' : Forest F R) :
  forest_inv f -> burning_bounded f -> Forest_tick f = Some f' -> burning_bounded f'.
Proof.
  intros Hf Hb Ht.
  destruct (Forest_tick_step f Hf)
    as (ksi & f'' & Ht' & _ & Hcell & _ & Htk & _ & _ & _ & Hbd).
  rewrite Ht in Ht'. injection Ht' as <-.
  intros p u Hp. rewrite Htk, Hbd. rewrite Hcell in Hp.
  destruct (trees f !! p) as [[| |v|]|] eqn:Hs; simpl in Hp; try discriminate.
  - destruct (bool_decide (p ∈ ksi)); discriminate.
  - injection Hp as <-. pose proof (usize_add_le (tick f) (burn_duration f)). split; [lia|].
    intros Hlt. rewrite usize_add_small by lia. lia.
  - destruct (v <=? tick f)%N eqn:E; [discriminate|].
    injection Hp as <-. apply N.leb_gt in E. destruct (Hb p v Hs). split; lia.
Qed.

Lemma reachable_burning_bounded (f : Forest F R) : reachable f -> burning_bounded f.
Proof.
  induction 1 as [w h p d dens r|f f' Hr IH Ht].
  - intros q u Hq. rewrite Forest_new_trees, lookup_insert in Hq.
    case_decide; [discriminate|].
    apply place_trees_uncaught in Hq. discriminate.
  - exact (burning_bounded_step f f' (reachable_inv f Hr) IH Ht).
Qed.

Lemma fire_potential_bound ks (f : Forest F R) :
  burning_bounded f -> fire_potential ks f <= length ks * (N.to_nat (burn_duration f) + 3).
Proof.
  intros Hb. unfold fire_potential.
  induction ks as [|k ks IH]; simpl; [lia|].
  assert (cell_potential (tick f) (burn_duration f) (trees f !! k) <=
          N.to_nat (burn_duration f) + 3).
  { destruct (trees f !! k) as [[| |u|]|] eqn:Hk; simpl; try lia.
    destruct (Hb k u Hk). lia. }
  lia.
Qed.

End Termination.

Section Extras.
Context {F R : Type} `{Float64 F} `{RngCore R F}.
Variable f_le : F -> F -> Prop.
Variable f_zero : F.
Hypothesis one_in_unit : f_le f_zero f_one /\ f_le f_one f_one.
Hypothesis sub_in_unit :
  forall a, f_le f_zero a /\ f_le a f_one ->
            f_le f_zero (f_sub f_one a) /\ f_le (f_sub f_one a) f_one.
Hypothesis mul_in_unit :
  forall a b, f_le f_zero a /\ f_le a f_one -> f_le f_zero b /\ f_le b f_one ->
              f_le f_zero (f_mul a b) /\ f_le (f_mul a b) f_one.

(** Termination: from every reachable state, calling [tick] at most
    [size trees * (burn_duration + 3)] times reaches a state where
    [steady_state] holds, so the UI loop that ticks while the forest is not
    in a steady state stops. The susceptibility in [[0, 1]] (with the
    float facts above) keeps every [gen_bool] probability in [[0, 1]], as
    [tick_probabilities_in_unit_interval] shows, so [gen_bool] does not
    panic; the bound on [tick] keeps every [usize] sum of these calls
    below 2^64, so a debug build does not panic either. *)
Theorem fire_reaches_steady_state (f : Forest F R) :
  reachable f ->
  f_le f_zero (suceptibility f) /\ f_le (suceptibility f) f_one ->
  (tick f + N.of_nat (size (trees f) * (N.to_nat (burn_duration f) + 3)) +
     burn_duration f < 2 ^ 64)%N ->
  exists n f', n <= size (trees f) * (N.to_nat (burn_duration f) + 3) /\
    Forest_ticks n f = Some f' /\ Forest_steady_state f' = true.
Proof using one_in_unit sub_in_unit mul_in_unit.
  intros Hr _ _.
  set (ks := (map_to_list (trees f)).*1).
  apply (ticks_to_steady ks f).
  - exact (reachable_inv f Hr).
  - intros p [s Hs]. apply list_elem_of_fmap. exists (p, s). split; [done|].
    by apply elem_of_map_to_list.
  - rewrite <- length_map_to_list.
    replace (length (map_to_list (trees f))) with (length ks)
      by (unfold ks; apply length_fmap).
    apply fire_potential_bound, reachable_burning_bounded, Hr.
Qed.

(** The payload of a [Burning] cell in a reachable state is at most
    [tick + burn_duration - 1]; while [tick + burn_duration <= 2^64], so
    that no release-build sum [tick + burn_duration] has wrapped yet, it
    is also at least [tick - 1]. *)
Theorem burning_payload_window (f : Forest F R) p u :
  reachable f -> trees f !! p = Some (Burning u) ->
  (u + 1 <= tick f + burn_duration f)%N /\
  ((tick f + burn_duration f <= 2 ^ 64)%N -> (tick f <= u + 1)%N).
Proof. intros Hr Hp. exact (reachable_burning_bounded f Hr p u Hp). Qed.

End Extras.

(** Properties of the accumulator values that [entry.or_insert(1.0) *= q]
    preserves. *)
Section Values.
Context {F R : Type} `{Float64 F} `{RngCore R F}.
Variable P : F -> Prop.
Variable q : F.
Hypothesis P_first : P (f_mul f_one q).
Hypothesis P_mul : forall v, P v -> P (f_mul v q).

Lemma may_burn_mul_values n (m : list (GridPosition * F)) :
  (forall e, e ∈ m -> P e.2) -> forall e, e ∈ may_burn_mul n q m -> P e.2.
Proof.
  induction m as [|[k v] m IH]; intros Hm e He; simpl in He.
  - apply list_elem_of_singleton in He as ->. done.
  - assert (Hv : P v) by exact (Hm (k, v) (list_elem_of_here _ _)).
    assert (Hm' : forall e, e ∈ m -> P e.2)
      by (intros e' He'; apply Hm; by apply list_elem_of_further).
    destruct (decide (n = k)).
    { apply elem_of_cons in He as [->|He]; [simpl; by apply P_mul|auto]. }
    destruct (pos_ltb n k).
    + apply elem_of_cons in He as [->|He]; [done|auto].
    + apply elem_of_cons in He as [->|He]; [done|]. by apply IH.
Qed.

Lemma spread_values t ns (mb : list (GridPosition * F)) :
  (forall e, e ∈ mb -> P e.2) -> forall e, e ∈ spread t q ns mb -> P e.2.
Proof.
  intros Hmb. unfold spread.
  apply (foldl_preserves _ (fun mb : list (GridPosition * F) => forall e, e ∈ mb -> P e.2));
    [exact Hmb|].
  intros mb' n Hmb'. destruct (t !! n) as [[| |u|]|]; try done.
  by apply may_burn_mul_values.
Qed.

Lemma propagate_values t tk bd act (mb : list (GridPosition * F)) cs mb' cs' :
  (forall e, e ∈ mb -> P e.2) ->
  propagate t tk bd q act mb cs = Some (mb', cs') ->
  forall e, e ∈ mb' -> P e.2.
Proof.
  revert mb cs. induction act as [|p act IH]; intros mb cs Hmb Hp; simpl in Hp.
  - injection Hp as <- _. done.
  - destruct (t !! p) as [[| |u|]|]; try discriminate.
    + exact (IH _ _ Hmb Hp).
    + exact (IH _ _ Hmb Hp).
    + exact (IH _ _ (spread_values t (neighbors p) mb Hmb) Hp).
    + exact (IH _ _ Hmb Hp).
Qed.

End Values.

Section Draws.
Context {F R : Type} `{Float64 F} `{RngCore R F}.

Lemma decide_ignitions_all_succeed (mb : list (GridPosition * F)) r cs :
  (forall e, e ∈ mb -> forall r0, (gen_bool e.2 r0).1 = true) ->
  (decide_ignitions mb r cs).2 = cs.
Proof.
  revert r cs. induction mb as [|[k v] mb IH]; intros r cs Hall; simpl; [done|].
  pose proof (Hall (k, v) (list_elem_of_here _ _) r) as Hb. simpl in Hb.
  destruct (gen_bool v r) as [b r'] eqn:Hg. simpl in Hb. subst b.
  apply IH. intros e He. apply Hall. by apply list_elem_of_further.
Qed.

Lemma decide_ignitions_all_fail (mb : list (GridPosition * F)) r cs :
  (forall e, e ∈ mb -> forall r0, (gen_bool e.2 r0).1 = false) ->
  (decide_ignitions mb r cs).2 = cs ++ map (fun e => (e.1, Catching)) mb.
Proof.
  revert r cs. induction mb as [|[k v] mb IH]; intros r cs Hall; simpl; [by rewrite app_nil_r|].
  pose proof (Hall (k, v) (list_elem_of_here _ _) r) as Hb. simpl in Hb.
  destruct (gen_bool v r) as [b r'] eqn:Hg. simpl in Hb. subst b.
  rewrite IH, <- app_assoc; [done|]. intros e He. apply Hall. by apply list_elem_of_further.
Qed.

End Draws.

(** [gen_bool] panics unless its probability lies in [[0, 1]]. The float
    facts below hold of IEEE doubles with rounding to nearest. *)
Section Probabilities.
Context {F R : Type} `{Float64 F} `{RngCore R F}.
Variable f_le : F -> F -> Prop.
Variable f_zero : F.
Hypothesis one_in_unit : f_le f_zero f_one /\ f_le f_one f_one.
Hypothesis sub_in_unit :
  forall a, f_le f_zero a /\ f_le a f_one ->
            f_le f_zero (f_sub f_one a) /\ f_le (f_sub f_one a) f_one.
Hypothesis mul_in_unit :
  forall a b, f_le f_zero a /\ f_le a f_one -> f_le f_zero b /\ f_le b f_one ->
              f_le f_zero (f_mul a b) /\ f_le (f_mul a b) f_one.

Lemma propagate_unit t tk bd q act (mb : list (GridPosition * F)) cs mb' cs' :
  f_le f_zero q /\ f_le q f_one ->
  (forall e, e ∈ mb -> f_le f_zero e.2 /\ f_le e.2 f_one) ->
  propagate t tk bd q act mb cs = Some (mb', cs') ->
  forall e, e ∈ mb' -> f_le f_zero e.2 /\ f_le e.2 f_one.
Proof.
  intros Hq. apply (propagate_values (fun v => f_le f_zero v /\ f_le v f_one)).
  - by apply mul_in_unit.
  - intros v Hv. by apply mul_in_unit.
Qed.

(** Every probability [tick] passes to [gen_bool] lies in [[0, 1]] when the
    susceptibility does: each accumulator value is in [[0, 1]], and so is
    every probability the second loop draws with (as recorded by
    [logged_rng]); [tick] therefore never hits [gen_bool]'s panic. *)
Theorem tick_probabilities_in_unit_interval (f : Forest F R) :
  reachable f ->
  f_le f_zero (suceptibility f) /\ f_le (suceptibility f) f_one ->
  exists mb cs,
    propagate (trees f) (tick f) (burn_duration f) (f_sub f_one (suceptibility f))
      (active f) (may_burn f) (changeset f) = Some (mb, cs) /\
    (forall e, e ∈ mb -> f_le f_zero e.2 /\ f_le e.2 f_one) /\
    (forall e, e ∈ (@decide_ignitions F (R * list (F * bool)) logged_rng mb (rng f, []) cs).1.2 ->
       f_le f_zero e.1 /\ f_le e.1 f_one).
Proof.
  intros Hr Hs. pose proof (reachable_inv f Hr) as (Hsort & Hact & Hmb & Hcs).
  destruct (propagate_Some (trees f) (tick f) (burn_duration f) (f_sub f_one (suceptibility f))
              (active f) (may_burn f) (changeset f)) as (mb & Hprop & _ & _).
  { intros q Hq. apply Hact in Hq. destruct (trees f !! q); [done|discriminate]. }
  { rewrite Hmb. constructor. }
  assert (Hunit : forall e, e ∈ mb -> f_le f_zero e.2 /\ f_le e.2 f_one).
  { eapply (propagate_unit _ _ _ _ _ _ _ _ _ (sub_in_unit _ Hs)); [|exact Hprop].
    rewrite Hmb. intros e He. by apply elem_of_nil in He. }
  eexists mb, _. split_and!; [exact Hprop|exact Hunit|].
  destruct (decide_ignitions_logged mb (rng f) []
              (changeset f ++ flat_map (active_change (trees f) (tick f) (burn_duration f)) (active f)))
    as (outs & _ & Hlog & _).
  rewrite Hlog. simpl. intros [p b] He. simpl.
  apply elem_of_zip_l in He. apply list_elem_of_fmap in He as ([k v] & -> & He).
  exact (Hunit _ He).
Qed.

End Probabilities.

Section Placement.
Context {F R : Type} `{Float64 F} `{RngCore R F}.

Lemma place_trees_cells w h (dens : F) (r : R) :
  place_trees w h dens r =
  foldl (fun st c => place_column dens (x c) st (y c)) (∅, r) (grid_cells w h).
Proof.
  unfold place_trees, grid_cells. generalize (∅ : gmap GridPosition TreeState, r).
  induction (N_range w) as [|x0 xs IH]; intros st; simpl; [done|].
  rewrite foldl_app, <- IH. f_equal. clear.
  revert st. induction (N_range h) as [|y0 ys IHy]; intros st; simpl; [done|apply IHy].
Qed.

Lemma place_cells_logged (dens : F) (cs : list GridPosition) (t : gmap GridPosition TreeState)
    (r : R) (log : list (F * bool)) :
  exists outs : list bool, length outs = length cs /\
    foldl (fun st c => @place_column F (R * list (F * bool)) logged_rng dens (x c) st (y c))
      (t, (r, log)) cs =
    ((foldl (fun st c => place_column dens (x c) st (y c)) (t, r) cs).1,
     ((foldl (fun st c => place_column dens (x c) st (y c)) (t, r) cs).2,
      log ++ map (fun b => (dens, b)) outs)) /\
    (forall q, (foldl (fun st c => place_column dens (x c) st (y c)) (t, r) cs).1 !! q =
       if bool_decide (q ∈ (filter (fun e => e.2 = true) (zip cs outs)).*1)
       then Some Uncaught else t !! q).
Proof.
  revert t r log. induction cs as [|c cs IH]; intros t r log; cbn [foldl].
  - exists []. split_and!; [done| |].
    + by rewrite app_nil_r.
    + intros q. done.
  - destruct (gen_bool dens r) as [b r1] eqn:Hg.
    set (t1 := if b then <[GridPosition_new (x c) (y c):=Uncaught]> t else t).
    assert (E1 : @place_column F (R * list (F * bool)) logged_rng dens (x c) (t, (r, log)) (y c)
                 = (t1, (r1, log ++ [(dens, b)]))).
    { unfold place_column. simpl. rewrite Hg. done. }
    assert (E2 : place_column dens (x c) (t, r) (y c) = (t1, r1)).
    { unfold place_column. rewrite Hg. done. }
    rewrite E1, E2.
    destruct (IH t1 r1 (log ++ [(dens, b)])) as (outs & Hlen & Hlog & Hlook).
    exists (b :: outs). split_and!; [simpl; lia| |].
    + rewrite Hlog, <- app_assoc. done.
    + intros q. rewrite Hlook. unfold t1. simpl.
      destruct c as [cx cy]. simpl.
      destruct b.
      * rewrite filter_cons_True by done. simpl.
        destruct (decide (q = GridPosition_new cx cy)) as [->|Hq].
        -- rewrite lookup_insert_eq.
           rewrite (bool_decide_true (_ ∈ _ :: _)) by apply list_elem_of_here.
           by destruct (bool_decide _).
        -- rewrite lookup_insert_ne by congruence.
           destruct (bool_decide (q ∈ _)) eqn:D1;
             destruct (bool_decide (q ∈ GridPosition_new cx cy :: _)) eqn:D2; try done.
           ++ apply bool_decide_eq_true in D1. apply bool_decide_eq_false in D2.
              exfalso. apply D2. by apply list_elem_of_further.
           ++ apply bool_decide_eq_false in D1. apply bool_decide_eq_true in D2.
              apply elem_of_cons in D2 as [D2|D2]; done.
      * rewrite filter_cons_False by done. done.
Qed.

Lemma elem_of_N_range v n : v ∈ N_range n <-> (v < n)%N.
Proof.
  unfold N_range. rewrite list_elem_of_fmap. split.
  - intros (i & -> & Hi). apply list_elem_of_In, in_seq in Hi. lia.
  - intros Hv. exists (N.to_nat v). split; [lia|].
    apply list_elem_of_In, in_seq. lia.
Qed.

Lemma elem_of_grid_cells w h q : q ∈ grid_cells w h <-> (x q < w)%N /\ (y q < h)%N.
Proof.
  unfold grid_cells. rewrite list_elem_of_In, in_flat_map. split.
  - intros (x0 & Hx0 & Hq). apply list_elem_of_In, list_elem_of_fmap in Hq as (y0 & -> & Hy0).
    apply list_elem_of_In, elem_of_N_range in Hx0. apply elem_of_N_range in Hy0. done.
  - intros [Hx Hy]. exists (x q). split.
    + by apply list_elem_of_In, elem_of_N_range.
    + apply list_elem_of_In, list_elem_of_fmap. exists (y q). split.
      * by destruct q.
      * by apply elem_of_N_range.
Qed.

Lemma length_grid_cells w h : length (grid_cells w h) = N.to_nat w * N.to_nat h.
Proof.
  unfold grid_cells, N_range. generalize (N.to_nat w) as n. intros n.
  induction n as [|n IH]; [done|].
  rewrite seq_S, map_app, flat_map_app, length_app, IH. simpl.
  rewrite app_nil_r, !length_map, length_seq. lia.
Qed.

Lemma Forest_new_rng w h (p : F) d dens (r : R) :
  rng (Forest_new w h p d dens r) = (place_trees w h dens r).2.
Proof. unfold Forest_new. by destruct (place_trees w h dens r). Qed.

End Placement.

Section Extras2.
Context {F R : Type} `{Float64 F} `{RngCore R F}.

(** Tree placement in [Forest::new]: the constructor makes exactly
    [grid_width * grid_height] calls of [gen_bool], all with probability
    [tree_density], one per cell with [x] in the outer loop and [y] in the
    inner one (as recorded by [logged_rng]); apart from the ignition cell,
    the cell map holds an [Uncaught] tree exactly at the cells whose draw
    succeeded and nothing elsewhere. *)
Theorem new_placement_draws w h (p : F) d (dens : F) (r : R) :
  let fl := @Forest_new F (R * list (F * bool)) logged_rng w h p d dens (r, []) in
  let f := Forest_new w h p d dens r in
  exists outs : list bool,
    length outs = N.to_nat w * N.to_nat h /\
    (rng fl).2 = map (fun b => (dens, b)) outs /\
    (rng fl).1 = rng f /\ trees fl = trees f /\
    forall q, q <> GridPosition_new (w / 2) (w / 2) ->
      trees f !! q =
        if bool_decide (q ∈ (filter (fun e => e.2 = true) (zip (grid_cells w h) outs)).*1)
        then Some Uncaught else None.
Proof.
  cbv zeta.
  destruct (place_cells_logged dens (grid_cells w h) ∅ r []) as (outs & Hlen & Hlog & Hlook).
  exists outs.
  rewrite !Forest_new_rng, !Forest_new_trees, !place_trees_cells, Hlog. simpl.
  split_and!; [by rewrite Hlen, length_grid_cells|done|done|done|].
  intros q Hq. rewrite lookup_insert_ne by congruence. rewrite Hlook. done.
Qed.

(** Every cell [Forest::new] puts in the map other than the ignition cell
    is an [Uncaught] tree inside the grid, and the map has at most
    [grid_width * grid_height + 1] cells. *)
Theorem new_trees_in_grid w h (p : F) d (dens : F) (r : R) :
  let f := Forest_new w h p d dens r in
  (forall q s, trees f !! q = Some s -> q <> GridPosition_new (w / 2) (w / 2) ->
     s = Uncaught /\ (x q < w)%N /\ (y q < h)%N) /\
  size (trees f) <= N.to_nat w * N.to_nat h + 1.
Proof.
  cbv zeta. rewrite Forest_new_trees.
  destruct (place_cells_logged dens (grid_cells w h) ∅ r []) as (outs & Hlen & _ & Hlook).
  rewrite place_trees_cells. split.
  - intros q s Hs Hq. rewrite lookup_insert_ne in Hs by congruence.
    rewrite Hlook in Hs. rewrite lookup_empty in Hs.
    case_bool_decide as Hin; [|discriminate]. injection Hs as <-. split; [done|].
    apply elem_of_grid_cells.
    apply list_elem_of_fmap in Hin as ([q' b] & -> & Hin).
    apply list_elem_of_filter in Hin as [_ Hin]. by apply elem_of_zip_l in Hin.
  - set (m := (foldl (fun st c => place_column dens (x c) st (y c)) (∅, r) (grid_cells w h)).1).
    assert (Hsub : dom m ⊆ list_to_set (grid_cells w h)).
    { intros q Hq. apply elem_of_dom in Hq as [s Hs]. unfold m in Hs.
      rewrite Hlook, lookup_empty in Hs. case_bool_decide as Hin; [|discriminate].
      apply elem_of_list_to_set.
      apply list_elem_of_fmap in Hin as ([q' b] & -> & Hin).
      apply list_elem_of_filter in Hin as [_ Hin]. by apply elem_of_zip_l in Hin. }
    assert (size m <= N.to_nat w * N.to_nat h).
    { rewrite <- size_dom, <- length_grid_cells.
      etrans; [apply subseteq_size, Hsub|]. clear.
      induction (grid_cells w h) as [|c l IH]; cbn [list_to_set length].
      - rewrite size_empty. lia.
      - rewrite size_union_alt, size_singleton.
        pose proof (subseteq_size (list_to_set l ∖ {[c]} : gset GridPosition) (list_to_set l)
                      ltac:(set_solver)). lia. }
    rewrite map_size_insert. destruct (m !! _); simpl; lia.
Qed.

End Extras2.

Section Extras3.
Context {F R : Type} `{Float64 F} `{RngCore R F}.

Lemma map_pair_inj (s : TreeState) (l l' : list GridPosition) :
  map (fun k => (k, s)) l = map (fun k => (k, s)) l' -> l = l'.
Proof.
  revert l'. induction l as [|a l IH]; intros [|b l'] Hl; simpl in Hl; try discriminate; [done|].
  injection Hl as -> Hl. f_equal. by apply IH.
Qed.

Lemma map_pair_fst (s : TreeState) (mb : list (GridPosition * F)) :
  map (fun e => (e.1, s)) mb = map (fun k => (k, s)) mb.*1.
Proof. induction mb as [|e mb IH]; simpl; [done|]. by rewrite IH. Qed.

(** No spontaneous ignition: across one call of [tick] from a reachable
    state, an [Uncaught] tree none of whose neighbours is an active
    [Burning] cell stays [Uncaught]. *)
Theorem no_ignition_without_burning_neighbor (f f' : Forest F R) p :
  reachable f -> Forest_tick f = Some f' ->
  trees f !! p = Some Uncaught -> burning_neighbors_count f p = 0 ->
  trees f' !! p = Some Uncaught.
Proof.
  intros Hr Ht Hp Hc.
  destruct (Forest_tick_step f (reachable_inv f Hr)) as (ks & f'' & Ht' & Hks & Hcell & _).
  rewrite Ht in Ht'. injection Ht' as <-.
  rewrite Hcell, Hp. simpl. rewrite bool_decide_false; [done|].
  intros Hk. destruct (Hks p Hk). done.
Qed.

(** Susceptibility 0: when [1 - suceptibility] is [1.0], [1.0 * 1.0] is
    [1.0] and [gen_bool(1.0)] always succeeds (as for [f64] and [rand]),
    no tree catches fire in [tick]: every cell only advances along
    [Catching -> Burning -> Burnt], and [Uncaught] trees stay so. *)
Theorem zero_susceptibility_no_spread (f f' : Forest F R) :
  reachable f ->
  f_sub f_one (suceptibility f) = f_one -> f_mul f_one f_one = f_one ->
  (forall r0, (gen_bool f_one r0).1 = true) ->
  Forest_tick f = Some f' ->
  forall p, trees f' !! p = cell_after (tick f) (burn_duration f) false (trees f !! p).
Proof.
  intros Hr Hq Hone Hdraw Ht p.
  pose proof (reachable_inv f Hr) as Hf.
  destruct (Forest_tick_step_full f Hf)
    as (mb & ks & f'' & Hprop & _ & _ & Hdec & Ht' & _ & Hcell & _).
  rewrite Ht in Ht'. injection Ht' as <-.
  rewrite Hq in Hprop.
  assert (Hvals : forall e, e ∈ mb -> e.2 = f_one).
  { eapply (propagate_values (fun v => v = f_one) f_one Hone
             (fun v Hv => eq_trans (f_equal (fun v => f_mul v f_one) Hv) Hone)
             _ _ _ _ (may_burn f) (changeset f) _ _); [|exact Hprop].
    destruct Hf as (_ & _ & -> & _). intros e He. by apply elem_of_nil in He. }
  rewrite decide_ignitions_all_succeed in Hdec.
  2:{ intros e He r0. rewrite (Hvals e He). apply Hdraw. }
  rewrite <- (app_nil_r (flat_map _ _)) in Hdec at 1.
  apply app_inv_head in Hdec.
  destruct ks as [|k ks]; [|discriminate].
  rewrite Hcell. done.
Qed.

(** Susceptibility 1: when [1 - suceptibility] is [z] with [1.0 * z = z],
    [z * z = z] and [gen_bool(z)] always fails (as for [z = 0.0] with
    [f64] and [rand]), [tick] sets every [Uncaught] tree with at least one
    active [Burning] neighbour to [Catching], and no other; the other cells
    move as [cell_after] says, a [Catching] cell taking the payload
    [tick + burn_duration] as the release build's [usize] sum gives it. *)
Theorem full_susceptibility_spread (f f' : Forest F R) (z : F) :
  reachable f ->
  f_sub f_one (suceptibility f) = z -> f_mul f_one z = z -> f_mul z z = z ->
  (forall r0, (gen_bool z r0).1 = false) ->
  Forest_tick f = Some f' ->
  forall p, trees f' !! p =
    cell_after (tick f) (burn_duration f)
      (bool_decide (trees f !! p = Some Uncaught /\ burning_neighbors_count f p <> 0))
      (trees f !! p).
Proof.
  intros Hr Hq Hfirst Hzz Hdraw Ht p.
  pose proof (reachable_inv f Hr) as Hf.
  destruct (Forest_tick_step_full f Hf)
    as (mb & ks & f'' & Hprop & _ & Hmbk & Hdec & Ht' & _ & Hcell & _).
  rewrite Ht in Ht'. injection Ht' as <-.
  rewrite Hq in Hprop.
  assert (Hvals : forall e, e ∈ mb -> e.2 = z).
  { eapply (propagate_values (fun v => v = z) z Hfirst
             (fun v Hv => eq_trans (f_equal (fun v => f_mul v z) Hv) Hzz)
             _ _ _ _ (may_burn f) (changeset f) _ _); [|exact Hprop].
    destruct Hf as (_ & _ & -> & _). intros e He. by apply elem_of_nil in He. }
  rewrite decide_ignitions_all_fail in Hdec.
  2:{ intros e He r0. rewrite (Hvals e He). apply Hdraw. }
  apply app_inv_head in Hdec. rewrite map_pair_fst in Hdec.
  apply map_pair_inj in Hdec. subst ks.
  rewrite Hcell. f_equal. apply bool_decide_ext. apply Hmbk.
Qed.

End Extras3.

Section NeighborFacts.

Lemma neighbor_at_bounds p d q :
  neighbor_at p d = Some q ->
  (Z.of_N (x q) <= isize_max)%Z /\ (Z.of_N (y q) <= isize_max)%Z.
Proof.
  unfold neighbor_at, isize_checked_add.
  repeat case_match; intros Hq; simplify_eq; simpl;
    repeat match goal with H : (_ && _) = true |- _ => apply andb_prop in H as [? ?] end;
    rewrite ?Z.leb_le in *; unfold isize_max in *; lia.
Qed.

Lemma elem_of_neighbors p q :
  q ∈ neighbors p <-> exists d, d ∈ DELTAS /\ neighbor_at p d = Some q.
Proof. unfold neighbors. apply list_elem_of_omap. Qed.

Lemma elem_of_DELTAS d :
  d ∈ DELTAS <-> (-1 <= d.1 <= 1)%Z /\ (-1 <= d.2 <= 1)%Z /\ d <> (0%Z, 0%Z).
Proof.
  split.
  - intros Hd. unfold DELTAS in Hd.
    repeat (apply elem_of_cons in Hd as [->|Hd]; [simpl; split_and!; [lia|lia|lia|lia|discriminate]|]).
    by apply elem_of_nil in Hd.
  - destruct d as [a b]. simpl. intros (Ha & Hb & Hab).
    assert (a = -1 \/ a = 0 \/ a = 1)%Z as [-> | [-> | ->]] by lia;
    (assert (b = -1 \/ b = 0 \/ b = 1)%Z as [-> | [-> | ->]] by lia);
    try congruence; unfold DELTAS; repeat constructor.
Qed.

Lemma neighbors_eq_spec pos :
  (x pos < 2 ^ 63 - 1)%N -> (y pos < 2 ^ 63 - 1)%N -> neighbors pos = neighbors_spec pos.
Proof.
  intros Hx Hy. unfold neighbors, neighbors_spec. apply list_omap_ext.
  unfold DELTAS.
  repeat (constructor; [apply neighbor_at_small; simpl; lia|]). constructor.
Qed.

Lemma elem_of_neighbors_spec p q :
  q ∈ neighbors_spec p <->
  q <> p /\ (Z.abs (Z.of_N (x q) - Z.of_N (x p)) <= 1)%Z /\
            (Z.abs (Z.of_N (y q) - Z.of_N (y p)) <= 1)%Z.
Proof.
  unfold neighbors_spec. rewrite list_elem_of_omap. split.
  - intros ([d1 d2] & Hd & Hq). apply elem_of_DELTAS in Hd as (Hd1 & Hd2 & Hd0). simpl in *.
    destruct ((0 <=? Z.of_N (x p) + d1) && (0 <=? Z.of_N (y p) + d2))%Z eqn:E; [|discriminate].
    apply andb_prop in E as [E1 E2]. apply Z.leb_le in E1, E2.
    injection Hq as <-. simpl. split_and!; [|lia|lia].
    intros Hpq. destruct p as [px py]. injection Hpq as Hx Hy. simpl in *.
    apply Hd0. f_equal; lia.
  - intros (Hpq & Hx & Hy).
    exists (Z.of_N (x q) - Z.of_N (x p), Z.of_N (y q) - Z.of_N (y p))%Z. simpl. split.
    + apply elem_of_DELTAS. simpl. split_and!; try lia.
      intros Heq. injection Heq as E1 E2. apply Hpq. destruct p, q. simpl in *. f_equal; lia.
    + replace (Z.of_N (x p) + (Z.of_N (x q) - Z.of_N (x p)))%Z with (Z.of_N (x q)) by lia.
      replace (Z.of_N (y p) + (Z.of_N (y q) - Z.of_N (y p)))%Z with (Z.of_N (y q)) by lia.
      rewrite (proj2 (Z.leb_le 0 (Z.of_N (x q)))) by lia.
      rewrite (proj2 (Z.leb_le 0 (Z.of_N (y q)))) by lia. simpl.
      rewrite !N2Z.id. by destruct q.
Qed.

End NeighborFacts.

Section Adjacency.

Lemma usize_as_isize_cases n :
  (usize_as_isize n = Z.of_N n /\ Z.of_N n < 2 ^ 63)%Z \/
  (usize_as_isize n = Z.of_N n - 2 ^ 64 /\ 2 ^ 63 <= Z.of_N n)%Z.
Proof.
  unfold usize_as_isize. destruct (Z.of_N n <? 2 ^ 63)%Z eqn:E.
  - apply Z.ltb_lt in E. by left.
  - apply Z.ltb_ge in E. by right.
Qed.

Lemma neighbor_at_near p d q :
  (x p < 2 ^ 64 - 1)%N -> (y p < 2 ^ 64 - 1)%N -> d ∈ DELTAS -> neighbor_at p d = Some q ->
  (Z.abs (Z.of_N (x q) - Z.of_N (x p)) <= 1)%Z /\ (Z.abs (Z.of_N (y q) - Z.of_N (y p)) <= 1)%Z.
Proof.
  intros Hx Hy Hd Hq. apply elem_of_DELTAS in Hd as (Hd1 & Hd2 & _).
  apply neighbor_at_coords in Hq as [Eqx Eqy].
  destruct (usize_as_isize_cases (x p)) as [[Ex Bx]|[Ex Bx]];
    destruct (usize_as_isize_cases (y p)) as [[Ey By]|[Ey By]];
    rewrite Ex in Eqx; rewrite Ey in Eqy; lia.
Qed.

Lemma neighbor_at_ne p d q : d ∈ DELTAS -> neighbor_at p d = Some q -> q <> p.
Proof.
  intros Hd Hq ->. apply elem_of_DELTAS in Hd as (Hd1 & Hd2 & Hd0).
  apply neighbor_at_coords in Hq as [Eqx Eqy]. destruct d as [d1 d2]. simpl in *.
  apply Hd0.
  destruct (usize_as_isize_cases (x p)) as [[Ex Bx]|[Ex Bx]];
    destruct (usize_as_isize_cases (y p)) as [[Ey By]|[Ey By]];
    rewrite Ex in Eqx; rewrite Ey in Eqy; f_equal; lia.
Qed.

Lemma elem_of_neighbors_small p q :
  (x p < 2 ^ 63 - 1)%N -> (y p < 2 ^ 63 - 1)%N ->
  q ∈ neighbors p <->
  q <> p /\ (Z.abs (Z.of_N (x q) - Z.of_N (x p)) <= 1)%Z /\
            (Z.abs (Z.of_N (y q) - Z.of_N (y p)) <= 1)%Z.
Proof. intros Hx Hy. rewrite neighbors_eq_spec by done. apply elem_of_neighbors_spec. Qed.

End Adjacency.

Section Frame.
Context {F R : Type} `{Float64 F} `{RngCore R F}.

Lemma tick_frame (f f' : Forest F R) :
  forest_inv f -> Forest_tick f = Some f' ->
  forest_inv f' /\ dom (trees f') = dom (trees f) /\
  (forall p, trees f !! p = Some Burnt -> trees f' !! p = Some Burnt) /\
  tick f' = (tick f + 1)%N /\
  grid_width f' = grid_width f /\ grid_height f' = grid_height f /\
  suceptibility f' = suceptibility f /\ burn_duration f' = burn_duration f.
Proof.
  intros Hf Ht.
  destruct (Forest_tick_step f Hf) as (ks & f'' & Ht' & _ & Hcell & Hinv & Htk & Hw & Hh & Hs & Hd).
  rewrite Ht in Ht'. injection Ht' as <-.
  split_and!; try done.
  - apply set_eq. intros p. rewrite !elem_of_dom, Hcell. apply cell_after_is_Some.
  - intros p Hp. by rewrite Hcell, Hp.
Qed.

Lemma steady_tick (f : Forest F R) :
  forest_inv f -> active f = [] ->
  Forest_tick f = Some {| grid_width := grid_width f; grid_height := grid_height f;
                          suceptibility := suceptibility f; burn_duration := burn_duration f;
                          rng := rng f; trees := trees f; active := active f;
                          tick := (tick f + 1)%N; may_burn := may_burn f;
                          changeset := changeset f |}.
Proof.
  intros (_ & _ & Hmb & Hcs) Ha. unfold Forest_tick. rewrite Ha, Hmb, Hcs. simpl.
  reflexivity.
Qed.

Lemma Forest_new_keys w h (p : F) d (dens : F) (r : R) q s :
  trees (Forest_new w h p d dens r) !! q = Some s ->
  q = GridPosition_new (w / 2) (w / 2) \/ ((x q < w)%N /\ (y q < h)%N).
Proof.
  rewrite Forest_new_trees, place_trees_cells.
  destruct (place_cells_logged dens (grid_cells w h) ∅ r []) as (outs & _ & _ & Hlook).
  intros Hs. destruct (decide (q = GridPosition_new (w / 2) (w / 2))) as [Hq|Hq]; [by left|].
  right. rewrite lookup_insert_ne in Hs by congruence.
  rewrite Hlook, lookup_empty in Hs. case_bool_decide as Hin; [|discriminate].
  apply elem_of_grid_cells.
  apply list_elem_of_fmap in Hin as ([q' b] & -> & Hin).
  apply list_elem_of_filter in Hin as [_ Hin]. by apply elem_of_zip_l in Hin.
Qed.

Lemma reachable_keys (f : Forest F R) q s :
  reachable f -> trees f !! q = Some s ->
  q = GridPosition_new (grid_width f / 2) (grid_width f / 2) \/
  ((x q < grid_width f)%N /\ (y q < grid_height f)%N).
Proof.
  intros Hr. revert q s. induction Hr as [w h p d dens r|f f' Hr IH Ht]; intros q s Hs.
  - destruct (Forest_new_fields w h p d dens r) as (-> & -> & _).
    by apply (Forest_new_keys w h p d dens r q s).
  - destruct (tick_frame f f' (reachable_inv f Hr) Ht) as (_ & Hdom & _ & _ & Hw & Hh & _).
    rewrite Hw, Hh.
    assert (Hq : q ∈ dom (trees f)) by (rewrite <- Hdom; apply elem_of_dom; by exists s).
    apply elem_of_dom in Hq as [s0 Hs0]. exact (IH q s0 Hs0).
Qed.

Lemma burning_neighbors_count_witness (f : Forest F R) k :
  burning_neighbors_count f k <> 0 ->
  exists b u, b ∈ active f /\ trees f !! b = Some (Burning u) /\ k ∈ neighbors b.
Proof.
  unfold burning_neighbors_count.
  destruct (filter _ (active f)) as [|b l] eqn:E; [done|]. intros _.
  assert (Hb : b ∈ filter (fun b => is_burning (trees f !! b) = true /\ k ∈ neighbors b) (active f))
    by (rewrite E; apply list_elem_of_here).
  apply list_elem_of_filter in Hb as [[Hburn Hk] Hb].
  destruct (trees f !! b) as [[| |u|]|] eqn:Hs; try discriminate.
  by exists b, u.
Qed.

Lemma reachable_spread (f : Forest F R) :
  reachable f -> (grid_width f < 2 ^ 64)%N -> (grid_height f < 2 ^ 64)%N ->
  forall q s, trees f !! q = Some s -> s <> Uncaught ->
  (Z.abs (Z.of_N (x q) - Z.of_N (grid_width f / 2)) <= Z.of_N (tick f))%Z /\
  (Z.abs (Z.of_N (y q) - Z.of_N (grid_width f / 2)) <= Z.of_N (tick f))%Z.
Proof.
  intros Hr. induction Hr as [w h p d dens r|f f' Hr IH Ht]; intros Hw Hh q s Hs Hu.
  - destruct (Forest_new_fields w h p d dens r) as (Ew & _ & _ & _ & _ & Etk & _).
    rewrite Ew, Etk. rewrite Forest_new_trees in Hs.
    destruct (decide (q = GridPosition_new (w / 2) (w / 2))) as [->|Hq]; [simpl; lia|].
    rewrite lookup_insert_ne in Hs by congruence.
    apply place_trees_uncaught in Hs. done.
  - pose proof (reachable_inv f Hr) as Hf.
    destruct (Forest_tick_step f Hf) as (ks & f'' & Ht' & Hks & Hcell & _ & Htk & Ew & Eh & _).
    rewrite Ht in Ht'. injection Ht' as <-.
    rewrite Ew in Hw |- *. rewrite Eh in Hh. rewrite Htk.
    specialize (IH Hw Hh). rewrite Hcell in Hs.
    destruct (trees f !! q) as [s0|] eqn:Hs0; [|discriminate].
    destruct (decide (s0 = Uncaught)) as [->|Hs0u].
    + simpl in Hs. case_bool_decide as Hk; injection Hs as <-; [|done].
      destruct (Hks q Hk) as [_ Hc].
      destruct (burning_neighbors_count_witness f q Hc) as (b & u & _ & Hb & Hqb).
      destruct (IH b (Burning u) Hb ltac:(discriminate)) as [Dx Dy].
      assert (Hbx : (x b < 2 ^ 64 - 1)%N /\ (y b < 2 ^ 64 - 1)%N).
      { destruct (reachable_keys f b _ Hr Hb) as [->|[Bx By]]; simpl.
        - pose proof (N.Div0.div_le_upper_bound (grid_width f) 2 (2 ^ 63)). lia.
        - lia. }
      apply elem_of_neighbors in Hqb as (dl & Hdl & Hq).
      destruct (neighbor_at_near b dl q (proj1 Hbx) (proj2 Hbx) Hdl Hq). lia.
    + destruct (IH q s0 Hs0 Hs0u) as [Dx Dy]. lia.
Qed.

Lemma reachable_steady_ticks (f : Forest F R) n :
  forest_inv f -> active f = [] ->
  Forest_ticks n f = Some {| grid_width := grid_width f; grid_height := grid_height f;
                             suceptibility := suceptibility f; burn_duration := burn_duration f;
                             rng := rng f; trees := trees f; active := active f;
                             tick := (tick f + N.of_nat n)%N; may_burn := may_burn f;
                             changeset := changeset f |}.
Proof.
  revert f. induction n as [|n IH]; intros f Hf Ha.
  - simpl. rewrite N.add_0_r. by destruct f.
  - rewrite (Forest_ticks_S f n _ (steady_tick f Hf Ha)).
    rewrite IH; [simpl; do 2 f_equal; lia| |done].
    destruct Hf as (Hs & Hact & Hmb & Hcs). split_and!; done.
Qed.

End Frame.

Ltac zcmp_simpl :=
  repeat match goal with
  | |- context [(?u <=? ?v)%Z] =>
      first [rewrite (proj2 (Z.leb_le u v)) by lia | rewrite (proj2 (Z.leb_gt u v)) by lia]
  | |- context [(?u <? ?v)%Z] =>
      first [rewrite (proj2 (Z.ltb_lt u v)) by lia | rewrite (proj2 (Z.ltb_ge u v)) by lia]
  end.

Section Extras4.

(** [neighbors] never yields the cell itself, never yields a cell twice,
    yields at most eight cells, and never yields a component above
    [isize::MAX], whatever the coordinate. *)
Theorem neighbors_well_formed p :
  NoDup (neighbors p) /\ length (neighbors p) <= 8 /\
  forall q, q ∈ neighbors p ->
    q <> p /\ (Z.of_N (x q) <= isize_max)%Z /\ (Z.of_N (y q) <= isize_max)%Z.
Proof.
  split_and!.
  - apply neighbors_NoDup.
  - unfold neighbors. change 8 with (length DELTAS). generalize DELTAS as l.
    induction l as [|d l IH]; csimpl; [lia|]. destruct (neighbor_at p d); simpl; lia.
  - intros q Hq. apply elem_of_neighbors in Hq as (d & Hd & Hq). split.
    + exact (neighbor_at_ne p d q Hd Hq).
    + exact (neighbor_at_bounds p d q Hq).
Qed.

(** For a coordinate whose components are both below [usize::MAX], every
    cell [neighbors] yields differs from it by at most one in each
    component. *)
Theorem neighbors_adjacent p q :
  (x p < 2 ^ 64 - 1)%N -> (y p < 2 ^ 64 - 1)%N -> q ∈ neighbors p ->
  (Z.abs (Z.of_N (x q) - Z.of_N (x p)) <= 1)%Z /\ (Z.abs (Z.of_N (y q) - Z.of_N (y p)) <= 1)%Z.
Proof.
  intros Hx Hy Hq. apply elem_of_neighbors in Hq as (d & Hd & Hq).
  exact (neighbor_at_near p d q Hx Hy Hd Hq).
Qed.

(** Moore neighbourhood: for a coordinate whose components are both below
    [isize::MAX], [neighbors] yields exactly the other cells at distance
    at most one in each component. *)
Theorem neighbors_moore p q :
  (x p < 2 ^ 63 - 1)%N -> (y p < 2 ^ 63 - 1)%N ->
  q ∈ neighbors p <->
  q <> p /\ (Z.abs (Z.of_N (x q) - Z.of_N (x p)) <= 1)%Z /\
            (Z.abs (Z.of_N (y q) - Z.of_N (y p)) <= 1)%Z.
Proof. apply elem_of_neighbors_small. Qed.

(** The neighbourhood relation is symmetric between coordinates whose
    components are all below [isize::MAX]. *)
Theorem neighbors_symmetric p q :
  (x p < 2 ^ 63 - 1)%N -> (y p < 2 ^ 63 - 1)%N ->
  (x q < 2 ^ 63 - 1)%N -> (y q < 2 ^ 63 - 1)%N ->
  q ∈ neighbors p <-> p ∈ neighbors q.
Proof.
  intros Hpx Hpy Hqx Hqy.
  rewrite (elem_of_neighbors_small p q), (elem_of_neighbors_small q p) by done.
  split; intros (Hne & Hdx & Hdy); split_and!; try lia; congruence.
Qed.

(** Size of the neighbourhood: below [isize::MAX], [neighbors] yields 8
    cells in the interior, 5 on the edges [x = 0] or [y = 0] and 3 at the
    corner [(0, 0)]. *)
Theorem neighbors_count p :
  (x p < 2 ^ 63 - 1)%N -> (y p < 2 ^ 63 - 1)%N ->
  length (neighbors p) =
    (if (x p =? 0)%N then 2 else 3) * (if (y p =? 0)%N then 2 else 3) - 1.
Proof.
  intros Hx Hy. rewrite neighbors_eq_spec by done.
  destruct p as [a b]. simpl in *. unfold neighbors_spec, DELTAS. cbn [omap list_omap fst snd].
  destruct (N.eqb_spec a 0) as [->|Ea]; destruct (N.eqb_spec b 0) as [->|Eb];
    cbn [x y]; zcmp_simpl; reflexivity.
Qed.

(** Wrap-around at [usize::MAX]: [usize::MAX as isize] is [-1], so the
    offset [(1, 0)] takes the coordinate [(usize::MAX, y)] to [(0, y)],
    the opposite side of the coordinate range. *)
Theorem neighbors_usize_max_wrap p :
  x p = (2 ^ 64 - 1)%N -> (y p < 2 ^ 63)%N ->
  GridPosition_new 0 (y p) ∈ neighbors p.
Proof.
  intros Hx Hy. apply elem_of_neighbors. exists (1%Z, 0%Z). split.
  - unfold DELTAS. apply list_elem_of_further, list_elem_of_here.
  - destruct p as [a b]. simpl in *. subst a.
    unfold neighbor_at, isize_checked_add, usize_as_isize, isize_min, isize_max. simpl.
    zcmp_simpl. simpl. zcmp_simpl. simpl. by rewrite Z.add_0_r, N2Z.id.
Qed.

End Extras4.

Section Extras5.
Context {F R : Type} `{Float64 F} `{RngCore R F}.

(** What [tick] never changes: over any number of calls from a reachable
    state, the set of coordinates in the cell map stays the same (no cell
    is added or removed), a [Burnt] cell stays [Burnt], the grid size,
    susceptibility and burn duration are unchanged, and the counter
    advances by the number of calls. *)
Theorem ticks_frame (f f' : Forest F R) n :
  reachable f -> Forest_ticks n f = Some f' ->
  dom (trees f') = dom (trees f) /\
  (forall p, trees f !! p = Some Burnt -> trees f' !! p = Some Burnt) /\
  tick f' = (tick f + N.of_nat n)%N /\
  grid_width f' = grid_width f /\ grid_height f' = grid_height f /\
  suceptibility f' = suceptibility f /\ burn_duration f' = burn_duration f.
Proof.
  intros Hr. pose proof (reachable_inv f Hr) as Hf. clear Hr.
  revert f Hf. induction n as [|n IH]; intros f Hf Hn; simpl in Hn.
  - injection Hn as <-. split_and!; auto. lia.
  - destruct (Forest_tick f) as [f1|] eqn:Ht; [|discriminate].
    destruct (tick_frame f f1 Hf Ht) as (Hf1 & Hdom & Hburnt & Htk & Hw & Hh & Hs & Hd).
    destruct (IH f1 Hf1 Hn) as (Hdom' & Hburnt' & Htk' & Hw' & Hh' & Hs' & Hd').
    split_and!; try congruence; auto. lia.
Qed.

(** Every cell of the map of a reachable state lies inside the grid, or is
    the ignition cell [(grid_width / 2, grid_width / 2)]; in particular
    the fire never spreads to a cell outside the grid. *)
Theorem cells_in_grid (f : Forest F R) q s :
  reachable f -> trees f !! q = Some s ->
  q = GridPosition_new (grid_width f / 2) (grid_width f / 2) \/
  ((x q < grid_width f)%N /\ (y q < grid_height f)%N).
Proof. apply reachable_keys. Qed.

(** Speed of the fire: in a reachable state whose grid dimensions are
    [usize] values, every cell that is not [Uncaught] is within [tick]
    cells of the ignition cell in each component; the fire advances at
    most one cell per call. *)
Theorem fire_spread_speed (f : Forest F R) q s :
  reachable f -> (grid_width f < 2 ^ 64)%N -> (grid_height f < 2 ^ 64)%N ->
  trees f !! q = Some s -> s <> Uncaught ->
  (Z.abs (Z.of_N (x q) - Z.of_N (grid_width f / 2)) <= Z.of_N (tick f))%Z /\
  (Z.abs (Z.of_N (y q) - Z.of_N (grid_width f / 2)) <= Z.of_N (tick f))%Z.
Proof. intros Hr Hw Hh. exact (reachable_spread f Hr Hw Hh q s). Qed.

(** A steady state is final: every cell of a reachable steady state is
    [Uncaught] or [Burnt], and any number [n] of further calls of [tick]
    only advance the counter by [n]. *)
Theorem steady_state_absorbing (f : Forest F R) n :
  reachable f -> Forest_steady_state f = true ->
  (forall p s, trees f !! p = Some s -> s = Uncaught \/ s = Burnt) /\
  Forest_ticks n f = Some {| grid_width := grid_width f; grid_height := grid_height f;
                             suceptibility := suceptibility f; burn_duration := burn_duration f;
                             rng := rng f; trees := trees f; active := active f;
                             tick := (tick f + N.of_nat n)%N; may_burn := may_burn f;
                             changeset := changeset f |}.
Proof.
  intros Hr Hs. pose proof (reachable_inv f Hr) as Hf.
  assert (Ha : active f = []).
  { unfold Forest_steady_state in Hs. apply Nat.eqb_eq, length_zero_iff_nil in Hs. done. }
  split; [|by apply reachable_steady_ticks].
  intros p s Hp. destruct Hf as (_ & Hact & _). specialize (Hact p).
  rewrite Ha, Hp in Hact. destruct s as [| |u|]; auto; exfalso;
    apply (elem_of_nil p), Hact; done.
Qed.

End Extras5.

(** ** Further evaluations at concrete inputs *)

Lemma fire_reaches_steady_state_witness :
  (Qle 0 f_one /\ Qle f_one f_one) /\
  (forall a : Q, Qle 0 a /\ Qle a f_one ->
     Qle 0 (f_sub f_one a) /\ Qle (f_sub f_one a) f_one) /\
  (forall a b : Q, Qle 0 a /\ Qle a f_one -> Qle 0 b /\ Qle b f_one ->
     Qle 0 (f_mul a b) /\ Qle (f_mul a b) f_one) /\
  reachable full_3x3 /\
  (Qle 0 (suceptibility full_3x3) /\ Qle (suceptibility full_3x3) f_one) /\
  (tick full_3x3 + N.of_nat (size (trees full_3x3) * (N.to_nat (burn_duration full_3x3) + 3)) +
     burn_duration full_3x3 < 2 ^ 64)%N /\
  exists n f', n <= size (trees full_3x3) * (N.to_nat (burn_duration full_3x3) + 3) /\
    Forest_ticks n full_3x3 = Some f' /\ Forest_steady_state f' = true.
Proof.
  assert (H1 : Qle 0 f_one /\ Qle f_one f_one) by (simpl; split; lra).
  assert (H2 : forall a : Q, Qle 0 a /\ Qle a f_one ->
                 Qle 0 (f_sub f_one a) /\ Qle (f_sub f_one a) f_one)
    by (simpl; intros a [Ha Ha']; split; lra).
  assert (H3 : forall a b : Q, Qle 0 a /\ Qle a f_one -> Qle 0 b /\ Qle b f_one ->
                 Qle 0 (f_mul a b) /\ Qle (f_mul a b) f_one)
    by (simpl; intros a b [Ha Ha'] [Hb Hb']; split; nra).
  assert (Hr : reachable full_3x3) by constructor.
  assert (Hs : Qle 0 (suceptibility full_3x3) /\ Qle (suceptibility full_3x3) f_one)
    by (vm_compute; split; discriminate).
  assert (Hb : (tick full_3x3 + N.of_nat (size (trees full_3x3) *
                  (N.to_nat (burn_duration full_3x3) + 3)) + burn_duration full_3x3 < 2 ^ 64)%N)
    by (vm_compute; reflexivity).
  split; [exact H1|]. split; [exact H2|]. split; [exact H3|]. split; [exact Hr|].
  split; [exact Hs|]. split; [exact Hb|].
  exact (fire_reaches_steady_state Qle 0%Q H1 H2 H3 full_3x3 Hr Hs Hb).
Defined.

Lemma burning_payload_window_witness :
  exists f, Forest_ticks 1 full_3x3 = Some f /\ reachable f /\
    trees f !! GridPosition_new 1 1 = Some (Burning 2) /\
    (2 + 1 <= tick f + burn_duration f)%N /\
    ((tick f + burn_duration f <= 2 ^ 64)%N -> (tick f <= 2 + 1)%N).
Proof.
  destruct (Forest_ticks 1 full_3x3) as [f|] eqn:E1; [|vm_compute in E1; discriminate].
  exists f.
  assert (Hr : reachable f) by (eapply Forest_ticks_reachable; [constructor|exact E1]).
  assert (Hp : trees f !! GridPosition_new 1 1 = Some (Burning 2))
    by (vm_compute in E1; injection E1 as <-; vm_compute; reflexivity).
  split; [reflexivity|]. split; [exact Hr|]. split; [exact Hp|].
  exact (burning_payload_window f (GridPosition_new 1 1) 2 Hr Hp).
Defined.

Lemma tick_probabilities_in_unit_interval_witness :
  (Qle 0 f_one /\ Qle f_one f_one) /\
  (forall a : Q, Qle 0 a /\ Qle a f_one ->
     Qle 0 (f_sub f_one a) /\ Qle (f_sub f_one a) f_one) /\
  (forall a b : Q, Qle 0 a /\ Qle a f_one -> Qle 0 b /\ Qle b f_one ->
     Qle 0 (f_mul a b) /\ Qle (f_mul a b) f_one) /\
  reachable full_3x3 /\
  (Qle 0 (suceptibility full_3x3) /\ Qle (suceptibility full_3x3) f_one) /\
  exists mb cs,
    propagate (trees full_3x3) (tick full_3x3) (burn_duration full_3x3)
      (f_sub f_one (suceptibility full_3x3))
      (active full_3x3) (may_burn full_3x3) (changeset full_3x3) = Some (mb, cs) /\
    (forall e, e ∈ mb -> Qle 0 e.2 /\ Qle e.2 f_one) /\
    (forall e, e ∈ (@decide_ignitions Q (nat * list (Q * bool)) logged_rng mb
                      (rng full_3x3, []) cs).1.2 ->
       Qle 0 e.1 /\ Qle e.1 f_one).
Proof.
  assert (H1 : Qle 0 f_one /\ Qle f_one f_one) by (simpl; split; lra).
  assert (H2 : forall a : Q, Qle 0 a /\ Qle a f_one ->
                 Qle 0 (f_sub f_one a) /\ Qle (f_sub f_one a) f_one)
    by (simpl; intros a [Ha Ha']; split; lra).
  assert (H3 : forall a b : Q, Qle 0 a /\ Qle a f_one -> Qle 0 b /\ Qle b f_one ->
                 Qle 0 (f_mul a b) /\ Qle (f_mul a b) f_one)
    by (simpl; intros a b [Ha Ha'] [Hb Hb']; split; nra).
  assert (Hr : reachable full_3x3) by constructor.
  assert (Hs : Qle 0 (suceptibility full_3x3) /\ Qle (suceptibility full_3x3) f_one)
    by (vm_compute; split; discriminate).
  split; [exact H1|]. split; [exact H2|]. split; [exact H3|]. split; [exact Hr|].
  split; [exact Hs|].
  exact (tick_probabilities_in_unit_interval Qle 0%Q H1 H2 H3 full_3x3 Hr Hs).
Defined.

Lemma no_ignition_without_burning_neighbor_witness :
  exists f', Forest_tick full_3x3 = Some f' /\ reachable full_3x3 /\
    trees full_3x3 !! GridPosition_new 0 0 = Some Uncaught /\
    burning_neighbors_count full_3x3 (GridPosition_new 0 0) = 0 /\
    trees f' !! GridPosition_new 0 0 = Some Uncaught.
Proof.
  destruct (Forest_tick full_3x3) as [f'|] eqn:E1; [|vm_compute in E1; discriminate].
  exists f'.
  assert (Hr : reachable full_3x3) by constructor.
  assert (Hp : trees full_3x3 !! GridPosition_new 0 0 = Some Uncaught) by (vm_compute; reflexivity).
  assert (Hc : burning_neighbors_count full_3x3 (GridPosition_new 0 0) = 0)
    by (vm_compute; reflexivity).
  split; [reflexivity|]. split_and!; [exact Hr|exact Hp|exact Hc|].
  exact (no_ignition_without_burning_neighbor full_3x3 f' _ Hr E1 Hp Hc).
Defined.

Lemma zero_susceptibility_no_spread_witness :
  exists f f', Forest_ticks 1 immune_3x3 = Some f /\ Forest_tick f = Some f' /\
    reachable f /\
    f_sub f_one (suceptibility f) = f_one /\ f_mul f_one f_one = f_one /\
    (forall r0, (gen_bool f_one r0).1 = true) /\
    forall p, trees f' !! p = cell_after (tick f) (burn_duration f) false (trees f !! p).
Proof.
  destruct (Forest_ticks 1 immune_3x3) as [f|] eqn:E1; [|vm_compute in E1; discriminate].
  destruct (Forest_tick f) as [f'|] eqn:E2.
  - exists f, f'.
    assert (Hr : reachable f) by (eapply Forest_ticks_reachable; [constructor|exact E1]).
    assert (Hq : f_sub f_one (suceptibility f) = f_one)
      by (vm_compute in E1; injection E1 as <-; vm_compute; reflexivity).
    assert (Hone : f_mul f_one f_one = f_one) by (vm_compute; reflexivity).
    assert (Hdraw : forall r0 : nat, (gen_bool f_one r0).1 = true).
    { intros r0. simpl. unfold Qle_bool. simpl. apply Z.leb_le.
      pose proof (Nat.mod_upper_bound r0 4). lia. }
    split_and!; [reflexivity|exact E2|exact Hr|exact Hq|exact Hone|exact Hdraw|].
    exact (zero_susceptibility_no_spread f f' Hr Hq Hone Hdraw E2).
  - vm_compute in E1. injection E1 as <-. vm_compute in E2. discriminate.
Defined.

Lemma full_susceptibility_spread_witness :
  exists f f', Forest_ticks 1 flammable_3x3 = Some f /\ Forest_tick f = Some f' /\
    reachable f /\
    f_sub f_one (suceptibility f) = 0%Q /\ f_mul f_one 0%Q = 0%Q /\ f_mul 0%Q 0%Q = 0%Q /\
    (forall r0, (gen_bool 0%Q r0).1 = false) /\
    forall p, trees f' !! p =
      cell_after (tick f) (burn_duration f)
        (bool_decide (trees f !! p = Some Uncaught /\ burning_neighbors_count f p <> 0))
        (trees f !! p).
Proof.
  destruct (Forest_ticks 1 flammable_3x3) as [f|] eqn:E1; [|vm_compute in E1; discriminate].
  destruct (Forest_tick f) as [f'|] eqn:E2.
  - exists f, f'.
    assert (Hr : reachable f) by (eapply Forest_ticks_reachable; [constructor|exact E1]).
    assert (Hq : f_sub f_one (suceptibility f) = 0%Q)
      by (vm_compute in E1; injection E1 as <-; vm_compute; reflexivity).
    assert (Hfirst : f_mul f_one 0%Q = 0%Q) by (vm_compute; reflexivity).
    assert (Hzz : f_mul 0%Q 0%Q = 0%Q) by (vm_compute; reflexivity).
    assert (Hdraw : forall r0 : nat, (gen_bool 0%Q r0).1 = false).
    { intros r0. simpl. unfold Qle_bool. simpl. apply Z.leb_gt. lia. }
    split_and!; [reflexivity|exact E2|exact Hr|exact Hq|exact Hfirst|exact Hzz|exact Hdraw|].
    exact (full_susceptibility_spread f f' 0%Q Hr Hq Hfirst Hzz Hdraw E2).
  - vm_compute in E1. injection E1 as <-. vm_compute in E2. discriminate.
Defined.

Lemma neighbors_adjacent_witness :
  (x (GridPosition_new (2 ^ 63 - 1) 0) < 2 ^ 64 - 1)%N /\
  (y (GridPosition_new (2 ^ 63 - 1) 0) < 2 ^ 64 - 1)%N /\
  GridPosition_new (2 ^ 63 - 2) 1 ∈ neighbors (GridPosition_new (2 ^ 63 - 1) 0) /\
  (Z.abs (Z.of_N (x (GridPosition_new (2 ^ 63 - 2) 1)) -
          Z.of_N (x (GridPosition_new (2 ^ 63 - 1) 0))) <= 1)%Z /\
  (Z.abs (Z.of_N (y (GridPosition_new (2 ^ 63 - 2) 1)) -
          Z.of_N (y (GridPosition_new (2 ^ 63 - 1) 0))) <= 1)%Z.
Proof.
  assert (Hx : (x (GridPosition_new (2 ^ 63 - 1) 0) < 2 ^ 64 - 1)%N) by (vm_compute; reflexivity).
  assert (Hy : (y (GridPosition_new (2 ^ 63 - 1) 0) < 2 ^ 64 - 1)%N) by (vm_compute; reflexivity).
  assert (Hq : GridPosition_new (2 ^ 63 - 2) 1 ∈ neighbors (GridPosition_new (2 ^ 63 - 1) 0))
    by (apply elem_of_neighbors; exists ((-1)%Z, 1%Z); split;
        [apply elem_of_DELTAS; simpl; split_and!; try lia; discriminate|vm_compute; reflexivity]).
  split; [exact Hx|]. split; [exact Hy|]. split; [exact Hq|].
  exact (neighbors_adjacent _ _ Hx Hy Hq).
Defined.

Lemma neighbors_moore_witness :
  (x (GridPosition_new 0 3) < 2 ^ 63 - 1)%N /\ (y (GridPosition_new 0 3) < 2 ^ 63 - 1)%N /\
  (GridPosition_new 1 2 ∈ neighbors (GridPosition_new 0 3) <->
   GridPosition_new 1 2 <> GridPosition_new 0 3 /\
   (Z.abs (Z.of_N (x (GridPosition_new 1 2)) - Z.of_N (x (GridPosition_new 0 3))) <= 1)%Z /\
   (Z.abs (Z.of_N (y (GridPosition_new 1 2)) - Z.of_N (y (GridPosition_new 0 3))) <= 1)%Z).
Proof.
  assert (Hx : (x (GridPosition_new 0 3) < 2 ^ 63 - 1)%N) by (vm_compute; reflexivity).
  assert (Hy : (y (GridPosition_new 0 3) < 2 ^ 63 - 1)%N) by (vm_compute; reflexivity).
  split; [exact Hx|]. split; [exact Hy|].
  exact (neighbors_moore (GridPosition_new 0 3) (GridPosition_new 1 2) Hx Hy).
Defined.

Lemma neighbors_symmetric_witness :
  (x (GridPosition_new 0 3) < 2 ^ 63 - 1)%N /\ (y (GridPosition_new 0 3) < 2 ^ 63 - 1)%N /\
  (x (GridPosition_new 1 2) < 2 ^ 63 - 1)%N /\ (y (GridPosition_new 1 2) < 2 ^ 63 - 1)%N /\
  (GridPosition_new 1 2 ∈ neighbors (GridPosition_new 0 3) <->
   GridPosition_new 0 3 ∈ neighbors (GridPosition_new 1 2)).
Proof.
  assert (H1 : (x (GridPosition_new 0 3) < 2 ^ 63 - 1)%N) by (vm_compute; reflexivity).
  assert (H2 : (y (GridPosition_new 0 3) < 2 ^ 63 - 1)%N) by (vm_compute; reflexivity).
  assert (H3 : (x (GridPosition_new 1 2) < 2 ^ 63 - 1)%N) by (vm_compute; reflexivity).
  assert (H4 : (y (GridPosition_new 1 2) < 2 ^ 63 - 1)%N) by (vm_compute; reflexivity).
  split_and!; [exact H1|exact H2|exact H3|exact H4|].
  exact (neighbors_symmetric _ _ H1 H2 H3 H4).
Defined.

Lemma neighbors_count_witness :
  (x (GridPosition_new 0 3) < 2 ^ 63 - 1)%N /\ (y (GridPosition_new 0 3) < 2 ^ 63 - 1)%N /\
  length (neighbors (GridPosition_new 0 3)) =
    (if (x (GridPosition_new 0 3) =? 0)%N then 2 else 3) *
    (if (y (GridPosition_new 0 3) =? 0)%N then 2 else 3) - 1.
Proof.
  assert (Hx : (x (GridPosition_new 0 3) < 2 ^ 63 - 1)%N) by (vm_compute; reflexivity).
  assert (Hy : (y (GridPosition_new 0 3) < 2 ^ 63 - 1)%N) by (vm_compute; reflexivity).
  split; [exact Hx|]. split; [exact Hy|].
  exact (neighbors_count (GridPosition_new 0 3) Hx Hy).
Defined.

Lemma neighbors_usize_max_wrap_witness :
  x (GridPosition_new (2 ^ 64 - 1) 7) = (2 ^ 64 - 1)%N /\
  (y (GridPosition_new (2 ^ 64 - 1) 7) < 2 ^ 63)%N /\
  GridPosition_new 0 (y (GridPosition_new (2 ^ 64 - 1) 7)) ∈
    neighbors (GridPosition_new (2 ^ 64 - 1) 7).
Proof.
  assert (Hx : x (GridPosition_new (2 ^ 64 - 1) 7) = (2 ^ 64 - 1)%N) by reflexivity.
  assert (Hy : (y (GridPosition_new (2 ^ 64 - 1) 7) < 2 ^ 63)%N) by (vm_compute; reflexivity).
  split; [exact Hx|]. split; [exact Hy|].
  exact (neighbors_usize_max_wrap _ Hx Hy).
Defined.

Lemma ticks_frame_witness :
  exists f', Forest_ticks 3 full_3x3 = Some f' /\ reachable full_3x3 /\
    dom (trees f') = dom (trees full_3x3) /\
    (forall p, trees full_3x3 !! p = Some Burnt -> trees f' !! p = Some Burnt) /\
    tick f' = (tick full_3x3 + N.of_nat 3)%N /\
    grid_width f' = grid_width full_3x3 /\ grid_height f' = grid_height full_3x3 /\
    suceptibility f' = suceptibility full_3x3 /\ burn_duration f' = burn_duration full_3x3.
Proof.
  destruct (Forest_ticks 3 full_3x3) as [f'|] eqn:E1; [|vm_compute in E1; discriminate].
  exists f'.
  assert (Hr : reachable full_3x3) by constructor.
  split; [reflexivity|]. split; [exact Hr|].
  exact (ticks_frame full_3x3 f' 3 Hr E1).
Defined.

Lemma cells_in_grid_witness :
  reachable wide_10x2 /\ trees wide_10x2 !! GridPosition_new 5 5 = Some Catching /\
  (GridPosition_new 5 5 = GridPosition_new (grid_width wide_10x2 / 2) (grid_width wide_10x2 / 2) \/
   ((x (GridPosition_new 5 5) < grid_width wide_10x2)%N /\
    (y (GridPosition_new 5 5) < grid_height wide_10x2)%N)).
Proof.
  assert (Hr : reachable wide_10x2) by constructor.
  assert (Hs : trees wide_10x2 !! GridPosition_new 5 5 = Some Catching) by (vm_compute; reflexivity).
  split; [exact Hr|]. split; [exact Hs|].
  exact (cells_in_grid wide_10x2 _ _ Hr Hs).
Defined.

Lemma fire_spread_speed_witness :
  exists f, Forest_ticks 2 full_3x3 = Some f /\ reachable f /\
    (grid_width f < 2 ^ 64)%N /\ (grid_height f < 2 ^ 64)%N /\
    trees f !! GridPosition_new 0 2 = Some Catching /\
    (Z.abs (Z.of_N (x (GridPosition_new 0 2)) - Z.of_N (grid_width f / 2)) <= Z.of_N (tick f))%Z /\
    (Z.abs (Z.of_N (y (GridPosition_new 0 2)) - Z.of_N (grid_width f / 2)) <= Z.of_N (tick f))%Z.
Proof.
  destruct (Forest_ticks 2 full_3x3) as [f|] eqn:E1; [|vm_compute in E1; discriminate].
  exists f.
  assert (Hr : reachable f) by (eapply Forest_ticks_reachable; [constructor|exact E1]).
  assert (Hw : (grid_width f < 2 ^ 64)%N)
    by (vm_compute in E1; injection E1 as <-; vm_compute; reflexivity).
  assert (Hh : (grid_height f < 2 ^ 64)%N)
    by (vm_compute in E1; injection E1 as <-; vm_compute; reflexivity).
  assert (Hs : trees f !! GridPosition_new 0 2 = Some Catching)
    by (vm_compute in E1; injection E1 as <-; vm_compute; reflexivity).
  split; [reflexivity|]. split_and!; [exact Hr|exact Hw|exact Hh|exact Hs| |];
    apply (fire_spread_speed f (GridPosition_new 0 2) Catching Hr Hw Hh Hs); discriminate.
Defined.

Lemma steady_state_absorbing_witness :
  exists f, Forest_ticks 2 single_tree = Some f /\ reachable f /\
    Forest_steady_state f = true /\
    (forall p s, trees f !! p = Some s -> s = Uncaught \/ s = Burnt) /\
    Forest_ticks 5 f = Some {| grid_width := grid_width f; grid_height := grid_height f;
                               suceptibility := suceptibility f; burn_duration := burn_duration f;
                               rng := rng f; trees := trees f; active := active f;
                               tick := (tick f + N.of_nat 5)%N; may_burn := may_burn f;
                               changeset := changeset f |}.
Proof.
  destruct (Forest_ticks 2 single_tree) as [f|] eqn:E1; [|vm_compute in E1; discriminate].
  exists f.
  assert (Hr : reachable f) by (eapply Forest_ticks_reachable; [constructor|exact E1]).
  assert (Hs : Forest_steady_state f = true) by (vm_compute in E1; injection E1 as <-; reflexivity).
  split; [reflexivity|]. split; [exact Hr|]. split; [exact Hs|].
  exact (steady_state_absorbing f 5 Hr Hs).
Defined.
